(** * Verification of better-metrics: the axum example and the benchmark drivers

    Rust sources embedded here:
    - [examples/axum-server/src/metrics.rs]: the label types [Method] and
      [StatusCode], the [middleware] and the scrape [handler];
    - [core/benches/counters.rs]: the label groups of the benchmarks and
      [high_cardinality::get_names].

    The engine these files call ([measured]: the [FixedCardinalityLabel]
    derive, counters, histograms and the text encoder) is not part of the
    sources; where a claim depends on it, it is modelled from the spec, and
    each such definition says so in its doc comment. *)

From Stdlib Require Import List Arith Lia Bool String Floats.
From Stdlib Require Import Permutation.
Import ListNotations.
Set Warnings "-abstract-large-number -inexact-float".

(* ------------------------------------------------------------------ *)
(** ** The label codec interface *)

Module measured.

(** [usize] values are small here; they are modelled as [nat].  A Rust
    panic is [None]. *)
Class FixedCardinalityLabel (T : Type) := {
  cardinality : nat;
  encode : T -> option nat;
  decode : nat -> option T
}.

(** Modelled from the spec: the [FixedCardinalityLabel] derive of
    [measured_derive] (not in the sources).  "For Fixed dimensions,
    encode/decode must be exact inverses over the declared enumeration;
    cardinality() must equal the number of enumerated variants": the
    derive numbers the variants in declaration order, and [decode] of a
    code outside [0, cardinality) panics. *)
Definition derive_encode {T : Type} (eqb : T -> T -> bool) (variants : list T)
    (x : T) : option nat :=
  let fix go (vs : list T) (i : nat) :=
    match vs with
    | [] => None
    | v :: vs' => if eqb x v then Some i else go vs' (S i)
    end in
  go variants 0.

Definition derive_decode {T : Type} (variants : list T) (c : nat) : option T :=
  nth_error variants c.

Definition derive_cardinality {T : Type} (variants : list T) : nat :=
  List.length variants.

(** Modelled from the spec (§3 Label Group, §4.2 dense mode): the
    composite index of a label group of fixed dimensions is the
    mixed-radix number [Σ code_i × Π_{j<i} cardinality_j]. *)
Fixpoint group_index (cards codes : list nat) : nat :=
  match cards, codes with
  | c :: cs, v :: vs => v + c * group_index cs vs
  | _, _ => 0
  end.

Definition group_cardinality (cards : list nat) : nat := fold_right Nat.mul 1 cards.

(** A label group value fits its schema: one code per dimension, each
    below that dimension's cardinality. *)
Fixpoint fits (cards codes : list nat) : bool :=
  match cards, codes with
  | [], [] => true
  | c :: cs, v :: vs => (v <? c) && fits cs vs
  | _, _ => false
  end.

(** Modelled from the spec (§3 Storage Backing, §4.3): the accumulators
    of a metric, either a dense zero-filled array indexed by the composite
    index, or a sparse map from composite index to accumulator, populated
    lazily and never shrunk.  The sparse map is an association list in the
    map's own iteration order. *)
Inductive Storage (A : Type) :=
| Dense (slots : list A)
| Sparse (entries : list (nat * A)).
Arguments Dense {A} slots.
Arguments Sparse {A} entries.

Fixpoint assoc_find {A} (k : nat) (es : list (nat * A)) : option A :=
  match es with
  | [] => None
  | (k', a) :: es' => if k =? k' then Some a else assoc_find k es'
  end.

(** Update the entry of [k] with [f], creating it from [init] first when
    absent (appended: a new entry goes after the existing ones). *)
Fixpoint assoc_upsert {A} (k : nat) (init : A) (f : A -> A) (es : list (nat * A))
    : list (nat * A) :=
  match es with
  | [] => [(k, f init)]
  | (k', a) :: es' =>
      if k =? k' then (k', f a) :: es' else (k', a) :: assoc_upsert k init f es'
  end.

(** Update slot [i] of a dense array; out of range is impossible for an
    index of the label set and leaves the array unchanged. *)
Fixpoint slot_update {A} (i : nat) (f : A -> A) (xs : list A) {struct xs} : list A :=
  match xs, i with
  | [], _ => []
  | x :: xs', 0 => f x :: xs'
  | x :: xs', S i' => x :: slot_update i' f xs'
  end.

(** [locate_or_create(index)] followed by the accumulator update. *)
Definition storage_update {A} (init : A) (i : nat) (f : A -> A) (st : Storage A)
    : Storage A :=
  match st with
  | Dense xs => Dense (slot_update i f xs)
  | Sparse es => Sparse (assoc_upsert i init f es)
  end.

(** The accumulator of index [i], [None] when not (yet) allocated. *)
Definition storage_get {A} (i : nat) (st : Storage A) : option A :=
  match st with
  | Dense xs => nth_error xs i
  | Sparse es => assoc_find i es
  end.

(** Modelled from the spec: [CounterVec::new] (dense, zero-filled to the
    total cardinality) and [CounterVec::new_sparse] (empty). *)
Definition counter_new (card : nat) : Storage nat := Dense (repeat 0 card).
Definition counter_new_sparse : Storage nat := Sparse [].

(** Modelled from the spec: [inc] adds 1 to the accumulator of the
    composite index, created at 0 first when sparse.  The counter is an
    unsigned integer that never decreases (§3). *)
Definition counter_inc (i : nat) (st : Storage nat) : Storage nat :=
  storage_update 0 i S st.

(** Modelled from the spec (§3 Histogram Accumulator, §4.4): bucket
    counts, observation count and running sum. *)
Record HistogramState := mkHistogramState {
  buckets : list nat;
  count : nat;
  sum : float
}.

Definition histogram_state_new (n : nat) : HistogramState :=
  mkHistogramState (repeat 0 n) 0 0%float.

(** Modelled from the spec: [Thresholds::exponential_buckets(start,
    factor)] for [N] buckets: [start], then each threshold the previous
    one times [factor]. *)
Fixpoint exponential_buckets_from (next factor : float) (n : nat) : list float :=
  match n with
  | 0 => []
  | S n' => next :: exponential_buckets_from (next * factor)%float factor n'
  end.

Definition exponential_buckets (start factor : float) (n : nat) : list float :=
  exponential_buckets_from start factor n.

(** Modelled from the spec: [observe(value)] increments every bucket
    whose threshold is [>= value], the count, and adds [value] to the
    sum. *)
Fixpoint observe_buckets (le : list float) (bs : list nat) (x : float) : list nat :=
  match le, bs with
  | t :: le', b :: bs' =>
      (if PrimFloat.leb x t then S b else b) :: observe_buckets le' bs' x
  | _, _ => bs
  end.

Definition histogram_observe (le : list float) (x : float) (h : HistogramState)
    : HistogramState :=
  mkHistogramState (observe_buckets le (buckets h) x) (S (count h)) (sum h + x)%float.

Definition histogram_vec_observe (le : list float) (i : nat) (x : float)
    (st : Storage HistogramState) : Storage HistogramState :=
  storage_update (histogram_state_new (List.length le)) i (histogram_observe le x) st.

(** Modelled from the spec (§4.5, §6): the text encoder.  A label value
    is written as a string, an integer or a float ([LabelVisitor]); an
    exposition line is a metric name, its rendered label pairs and a
    sample.  The encoder's buffer is the list of lines written so far. *)
Inductive LabelValue :=
| LStr (s : string)
| LInt (n : nat)
| LFloat (f : float).

Inductive Sample :=
| SInt (n : nat)
| SFloat (f : float)
| SHelp (text : string).

Record Line := mkLine {
  l_name : string;
  l_labels : list (string * LabelValue);
  l_value : Sample
}.

Record TextEncoder := mkTextEncoder { buf : list Line }.

Definition TextEncoder_new : TextEncoder := mkTextEncoder [].

Definition write_lines (ls : list Line) (e : TextEncoder) : TextEncoder :=
  mkTextEncoder (buf e ++ ls).

Definition write_help (name text : string) (e : TextEncoder) : TextEncoder :=
  write_lines [mkLine name [] (SHelp text)] e.

(** [finish()] returns the accumulated text and leaves the encoder empty
    for reuse. *)
Definition finish (e : TextEncoder) : list Line * TextEncoder :=
  (buf e, mkTextEncoder []).

(** The populated entries of a storage in its iteration order: every slot
    of a dense array, the allocated entries of a sparse map. *)
Fixpoint enumerate_from {A} (i : nat) (xs : list A) : list (nat * A) :=
  match xs with
  | [] => []
  | x :: xs' => (i, x) :: enumerate_from (S i) xs'
  end.

Definition storage_entries {A} (st : Storage A) : list (nat * A) :=
  match st with
  | Dense xs => enumerate_from 0 xs
  | Sparse es => es
  end.

(** A metric vector: its label set's decoding of a composite index into
    label pairs, and its storage. *)
Record MetricVec (A : Type) := mkMetricVec {
  labels_of : nat -> list (string * LabelValue);
  storage : Storage A
}.
Arguments mkMetricVec {A} labels_of storage.
Arguments labels_of {A} m i.
Arguments storage {A} m.

(** [CounterVec::collect_into(name, encoder)]: one line per populated
    label combination. *)
Definition counter_lines (name : string) (m : MetricVec nat) : list Line :=
  map (fun '(i, n) => mkLine name (labels_of m i) (SInt n)) (storage_entries (storage m)).

Definition counter_collect_into (name : string) (m : MetricVec nat) (e : TextEncoder)
    : TextEncoder :=
  write_lines (counter_lines name m) e.

(** [HistogramVec::collect_into(name, encoder)]: per label combination,
    one [_bucket] line per threshold with its [le] label, then [_sum] and
    [_count]. *)
Definition histogram_state_lines (name : string) (le : list float)
    (labels : list (string * LabelValue)) (h : HistogramState) : list Line :=
  map (fun '(t, b) => mkLine (name ++ "_bucket")%string (labels ++ [("le"%string, LFloat t)]) (SInt b))
      (combine le (buckets h))
  ++ [mkLine (name ++ "_sum")%string labels (SFloat (sum h));
      mkLine (name ++ "_count")%string labels (SInt (count h))].

Definition histogram_lines (name : string) (le : list float)
    (m : MetricVec HistogramState) : list Line :=
  flat_map (fun '(i, h) => histogram_state_lines name le (labels_of m i) h)
           (storage_entries (storage m)).

Definition histogram_collect_into (name : string) (le : list float)
    (m : MetricVec HistogramState) (e : TextEncoder) : TextEncoder :=
  write_lines (histogram_lines name le m) e.

(** Modelled from the spec (§2 String Interner, §3 Interner Table): the
    interner ([ThreadedRodeo]) of a dynamic dimension, as the list of its
    strings in handle order.  A string gets the next handle on first sight
    (handles are dense from 0 and never freed) and its own handle on every
    later insertion; [resolve] is the reverse lookup. *)
Definition Interner := list string.

Fixpoint index_of (s : string) (tbl : Interner) : option nat :=
  match tbl with
  | [] => None
  | t :: tbl' => if String.eqb s t then Some 0 else option_map S (index_of s tbl')
  end.

Definition intern (s : string) (tbl : Interner) : nat * Interner :=
  match index_of s tbl with
  | Some h => (h, tbl)
  | None => (List.length tbl, tbl ++ [s])
  end.

Fixpoint intern_all (ss : list string) (tbl : Interner) : list nat * Interner :=
  match ss with
  | [] => ([], tbl)
  | s :: ss' =>
      let '(h, tbl1) := intern s tbl in
      let '(hs, tbl2) := intern_all ss' tbl1 in
      (h :: hs, tbl2)
  end.

(** Lookup without insertion, as on export. *)
Fixpoint lookup_all (ss : list string) (tbl : Interner) : option (list nat) :=
  match ss with
  | [] => Some []
  | s :: ss' =>
      match index_of s tbl, lookup_all ss' tbl with
      | Some h, Some hs => Some (h :: hs)
      | _, _ => None
      end
  end.

Definition resolve (tbl : Interner) (h : nat) : option string := nth_error tbl h.

(** Modelled from the spec (§3 Label Group, §7 composite index for mixed
    Fixed/Dynamic dimensions): a label group with dynamic dimensions is
    keyed by the mixed-radix index of its fixed dimensions together with
    the interner handles of its dynamic ones, an outer key layer beside the
    fixed radix product; such a metric is sparse. *)
Record DynGroup := mkDynGroup { fixed_codes : list nat; dyn_values : list string }.

Definition DynKey : Type := nat * list nat.

Definition DynKey_eqb (k1 k2 : DynKey) : bool :=
  (fst k1 =? fst k2) && (if list_eq_dec Nat.eq_dec (snd k1) (snd k2) then true else false).

Definition dyn_key (cards : list nat) (g : DynGroup) (tbl : Interner) : DynKey * Interner :=
  let '(hs, tbl') := intern_all (dyn_values g) tbl in
  ((group_index cards (fixed_codes g), hs), tbl').

Fixpoint dyn_find {A} (k : DynKey) (es : list (DynKey * A)) : option A :=
  match es with
  | [] => None
  | (k', a) :: es' => if DynKey_eqb k k' then Some a else dyn_find k es'
  end.

Fixpoint dyn_upsert {A} (k : DynKey) (init : A) (f : A -> A) (es : list (DynKey * A))
    : list (DynKey * A) :=
  match es with
  | [] => [(k, f init)]
  | (k', a) :: es' =>
      if DynKey_eqb k k' then (k', f a) :: es' else (k', a) :: dyn_upsert k init f es'
  end.

(** A counter vector whose label set has dynamic dimensions: the interner
    of the label set and the sparse accumulators. *)
Record DynCounter := mkDynCounter {
  interner : Interner;
  dyn_entries : list (DynKey * nat)
}.

Definition dyn_counter_inc (cards : list nat) (g : DynGroup) (c : DynCounter) : DynCounter :=
  let '(k, tbl) := dyn_key cards g (interner c) in
  mkDynCounter tbl (dyn_upsert k 0 S (dyn_entries c)).

(** The accumulator of a label group, [None] when it was never allocated. *)
Definition dyn_counter_get (cards : list nat) (g : DynGroup) (c : DynCounter) : option nat :=
  match lookup_all (dyn_values g) (interner c) with
  | None => None
  | Some hs => dyn_find (group_index cards (fixed_codes g), hs) (dyn_entries c)
  end.

End measured.

(* ------------------------------------------------------------------ *)
(** ** [examples/axum-server/src/metrics.rs]: label types *)

Module axum_http.

(** [axum::http::Method]: the nine standard methods and extension
    methods.  [Method::from_bytes] maps the standard names to the standard
    constructors, so an extension never spells a standard method. *)
Inductive Method :=
| OPTIONS | GET | POST | PUT | DELETE | HEAD | TRACE | CONNECT | PATCH
| Extension (name : string).

(** The derived [PartialEq] of [http::Method]. *)
Definition Method_eqb (a b : Method) : bool :=
  match a, b with
  | OPTIONS, OPTIONS | GET, GET | POST, POST | PUT, PUT | DELETE, DELETE
  | HEAD, HEAD | TRACE, TRACE | CONNECT, CONNECT | PATCH, PATCH => true
  | Extension x, Extension y => String.eqb x y
  | _, _ => false
  end.

(** [axum::http::StatusCode]: a [u16] in [100, 1000). *)
Record StatusCode := mkStatusCode { as_u16 : nat }.

Definition u16_MAX : nat := 65535.

(** [StatusCode::from_u16]: [Err] outside [100..1000]. *)
Definition StatusCode_from_u16 (src : nat) : option StatusCode :=
  if (100 <=? src) && (src <? 1000) then Some (mkStatusCode src) else None.

End axum_http.

Module metrics.
Import measured.

(** [enum Method { Get, Post, Other }] with the derived label codec. *)
Inductive Method := Get | Post | Other.

Definition Method_eqb (a b : Method) : bool :=
  match a, b with
  | Get, Get | Post, Post | Other, Other => true
  | _, _ => false
  end.

Definition Method_variants : list Method := [Get; Post; Other].

#[global] Instance Method_label : FixedCardinalityLabel Method := {
  cardinality := derive_cardinality Method_variants;
  encode := derive_encode Method_eqb Method_variants;
  decode := derive_decode Method_variants
}.

(** [impl From<axum::http::Method> for Method]. *)
Definition Method_from (value : axum_http.Method) : Method :=
  if axum_http.Method_eqb value axum_http.GET then Get
  else if axum_http.Method_eqb value axum_http.POST then Post
  else Other.

(** [struct StatusCode(axum::http::StatusCode)]. *)
Record StatusCode := mkStatusCode { status0 : axum_http.StatusCode }.

(** [(100..1000).len()] *)
Definition StatusCode_cardinality : nat := List.length (seq 100 (1000 - 100)).

(** [self.0.as_u16() as usize - 100]: the [usize] subtraction panics
    below 100. *)
Definition StatusCode_encode (s : StatusCode) : option nat :=
  let n := axum_http.as_u16 (status0 s) in
  if n <? 100 then None else Some (n - 100).

(** [Self(StatusCode::from_u16(u16::try_from(value).unwrap() + 100).unwrap())]:
    [try_from] fails above [u16::MAX], the [u16] addition overflows above
    [u16::MAX], [from_u16] fails outside [100, 1000). *)
Definition StatusCode_decode (value : nat) : option StatusCode :=
  if axum_http.u16_MAX <? value then None
  else
    let v := value + 100 in
    if axum_http.u16_MAX <? v then None
    else match axum_http.StatusCode_from_u16 v with
         | Some c => Some (mkStatusCode c)
         | None => None
         end.

#[global] Instance StatusCode_label : FixedCardinalityLabel StatusCode := {
  cardinality := StatusCode_cardinality;
  encode := StatusCode_encode;
  decode := StatusCode_decode
}.

(** [#[label(rename_all = "snake_case")]]: the label value of a
    variant. *)
Definition Method_name (m : Method) : string :=
  match m with Get => "get" | Post => "post" | Other => "other" end.

(** A [lasso::RodeoReader] built from a list of strings: the key of a
    string is its position. *)
Definition RodeoReader := list string.

Fixpoint rodeo_get (r : RodeoReader) (s : string) : option nat :=
  match r with
  | [] => None
  | s' :: r' => if String.eqb s s' then Some 0 else option_map S (rodeo_get r' s)
  end.

Definition rodeo_resolve (r : RodeoReader) (k : nat) : string := nth k r ""%string.

(** [struct HttpRequests { path, method }] and
    [struct HttpResponses { path, method, status }]. *)
Record HttpRequests := mkHttpRequests { rq_path : string; rq_method : Method }.
Record HttpResponses :=
  mkHttpResponses { rs_path : string; rs_method : Method; rs_status : StatusCode }.

(** The derived label sets, with the label group codec modelled from the
    spec ([measured.group_index], first field least significant).  The
    [path] dimension is [fixed_with] the shared [RodeoReader]. *)
Definition HttpRequestsSet_encode (path : RodeoReader) (v : HttpRequests) : option nat :=
  match rodeo_get path (rq_path v), measured.encode (rq_method v) with
  | Some p, Some m => Some (measured.group_index [List.length path; 3] [p; m])
  | _, _ => None
  end.

Definition HttpRequestsSet_labels (path : RodeoReader) (i : nat)
    : list (string * measured.LabelValue) :=
  let p := i mod List.length path in
  let m := (i / List.length path) mod 3 in
  [("path"%string, measured.LStr (rodeo_resolve path p));
   ("method"%string, measured.LStr (match nth_error Method_variants m with
                                    | Some x => Method_name x
                                    | None => ""%string end))].

Definition HttpResponsesSet_labels (path : RodeoReader) (i : nat)
    : list (string * measured.LabelValue) :=
  HttpRequestsSet_labels path (i mod (List.length path * 3))
  ++ [("status"%string, measured.LInt (i / (List.length path * 3) + 100))].

(** [struct AppMetrics]. *)
Record AppMetrics := mkAppMetrics {
  encoder : measured.TextEncoder;
  http_requests : measured.MetricVec nat;
  http_responses : measured.MetricVec nat;
  http_request_duration : measured.MetricVec measured.HistogramState;
  http_request_duration_le : list float
}.

(** [AppMetrics::new]: three sparse vectors, the histogram with
    [Thresholds::exponential_buckets(0.1, 2.0)] and [N = 6]. *)
Definition AppMetrics_new (paths : RodeoReader) : AppMetrics :=
  mkAppMetrics measured.TextEncoder_new
    (measured.mkMetricVec (HttpRequestsSet_labels paths) measured.counter_new_sparse)
    (measured.mkMetricVec (HttpResponsesSet_labels paths) measured.counter_new_sparse)
    (measured.mkMetricVec (HttpRequestsSet_labels paths) (measured.Sparse []))
    (measured.exponential_buckets 0.1 2.0 6).

(** An axum request and response, with what [middleware] and [handler]
    read of them: the method, the [MatchedPath] extension, the status. *)
Record Request := mkRequest {
  req_method : axum_http.Method;
  req_matched_path : option string
}.

Record Response := mkResponse {
  resp_status : axum_http.StatusCode;
  resp_headers : list (string * string);
  resp_body : list measured.Line
}.

(** [Response::new(body)]: status 200, no headers. *)
Definition Response_new (body : list measured.Line) : Response :=
  mkResponse (axum_http.mkStatusCode 200) [] body.

(** The calls [middleware] makes, in order. *)
Inductive Call :=
| IncHttpRequests (labels : HttpRequests)
| RunNext
| ObserveHttpRequestDuration (labels : HttpRequests) (secs : float)
| IncHttpResponses (labels : HttpResponses).

(** [name.with_suffix(Total)] *)
Definition with_suffix_Total (name : string) : string := (name ++ "_total")%string.

(** [handler(s)]: collect the three vectors into the encoder, then
    [Response::new(encoder.finish().into())]. *)
Definition handler (s : AppMetrics) : Response * AppMetrics :=
  let e := encoder s in
  let e := measured.counter_collect_into (with_suffix_Total "http_requests")
             (http_requests s) e in
  let e := measured.counter_collect_into (with_suffix_Total "http_responses")
             (http_responses s) e in
  let e := measured.histogram_collect_into "http_request_duration_seconds"
             (http_request_duration_le s) (http_request_duration s) e in
  let '(body, e') := measured.finish e in
  (Response_new body,
   mkAppMetrics e' (http_requests s) (http_responses s) (http_request_duration s)
     (http_request_duration_le s)).

(** [impl LabelValue for StatusCode]: [v.write_int(self.0.as_u16() as u64)]. *)
Definition StatusCode_visit (s : StatusCode) : measured.LabelValue :=
  measured.LInt (axum_http.as_u16 (status0 s)).

(** The composite index of an [HttpResponses] label group (spec-modelled
    mixed radix, as [HttpRequestsSet_encode]). *)
Definition HttpResponsesSet_encode (path : RodeoReader) (v : HttpResponses) : option nat :=
  match rodeo_get path (rs_path v), measured.encode (rs_method v),
        measured.encode (rs_status v) with
  | Some p, Some m, Some st => Some (measured.group_index [List.length path; 3; 900] [p; m; st])
  | _, _, _ => None
  end.

(** [middleware(s, request, next)]: [paths] is the [RodeoReader] of the
    label sets of [s.0.metrics], [next] the downstream handler and
    [elapsed] the [duration.as_secs_f64()] measured around it.  [None] is a
    panic: of [extract_parts::<MatchedPath>().await.unwrap()], of
    [http_requests.inc] on a path the reader does not hold (before [next]
    runs), or of [http_responses.inc] on a label group outside its set. *)
Definition middleware (paths : RodeoReader) (request : Request)
    (next : Request -> Response) (elapsed : float) : option (list Call * Response) :=
  match req_matched_path request with
  | None => None
  | Some path =>
      let method := Method_from (req_method request) in
      match HttpRequestsSet_encode paths (mkHttpRequests path method) with
      | None => None
      | Some _ =>
          let c1 := IncHttpRequests (mkHttpRequests path method) in
          let response := next request in
          let c2 := ObserveHttpRequestDuration (mkHttpRequests path method) elapsed in
          let l3 := mkHttpResponses path method (mkStatusCode (resp_status response)) in
          match HttpResponsesSet_encode paths l3 with
          | None => None
          | Some _ => Some ([c1; RunNext; c2; IncHttpResponses l3], response)
          end
      end
  end.

(** Modelled from the spec: the effect of one call of [middleware] on the
    metric vectors of [AppMetrics] ([inc] on a sparse counter vector,
    [observe] on the sparse histogram vector).  A label group outside the
    label set is a programming error in the spec; it is left without
    effect here. *)
Definition apply_call (paths : RodeoReader) (s : AppMetrics) (c : Call) : AppMetrics :=
  match c with
  | IncHttpRequests l =>
      match HttpRequestsSet_encode paths l with
      | Some i =>
          mkAppMetrics (encoder s)
            (measured.mkMetricVec (measured.labels_of (http_requests s))
               (measured.counter_inc i (measured.storage (http_requests s))))
            (http_responses s) (http_request_duration s) (http_request_duration_le s)
      | None => s
      end
  | RunNext => s
  | ObserveHttpRequestDuration l x =>
      match HttpRequestsSet_encode paths l with
      | Some i =>
          mkAppMetrics (encoder s) (http_requests s) (http_responses s)
            (measured.mkMetricVec (measured.labels_of (http_request_duration s))
               (measured.histogram_vec_observe (http_request_duration_le s) i x
                  (measured.storage (http_request_duration s))))
            (http_request_duration_le s)
      | None => s
      end
  | IncHttpResponses l =>
      match HttpResponsesSet_encode paths l with
      | Some i =>
          mkAppMetrics (encoder s) (http_requests s)
            (measured.mkMetricVec (measured.labels_of (http_responses s))
               (measured.counter_inc i (measured.storage (http_responses s))))
            (http_request_duration s) (http_request_duration_le s)
      | None => s
      end
  end.

Definition apply_calls (paths : RodeoReader) (s : AppMetrics) (cs : list Call) : AppMetrics :=
  fold_left (apply_call paths) cs s.

End metrics.

(* ------------------------------------------------------------------ *)
(** ** [core/benches/counters.rs] *)

Module fixed_cardinality.
Import measured.

Definition LOOPS : nat := 2000.

(** [enum ErrorKind { User, Internal, Network }] with the derived label
    codec. *)
Inductive ErrorKind := User | Internal | Network.

Definition ErrorKind_eqb (a b : ErrorKind) : bool :=
  match a, b with
  | User, User | Internal, Internal | Network, Network => true
  | _, _ => false
  end.

Definition ErrorKind_variants : list ErrorKind := [User; Internal; Network].

#[global] Instance ErrorKind_label : FixedCardinalityLabel ErrorKind := {
  cardinality := derive_cardinality ErrorKind_variants;
  encode := derive_encode ErrorKind_eqb ErrorKind_variants;
  decode := derive_decode ErrorKind_variants
}.

Definition routes : list string :=
  ["/api/v1/users"; "/api/v1/users/:id"; "/api/v1/products";
   "/api/v1/products/:id"; "/api/v1/products/:id/owner";
   "/api/v1/products/:id/purchase"]%string.

Definition errors : list ErrorKind := [User; Internal; Network].

(** [struct Error { kind, route }]: [kind] fixed, [route] [fixed_with] a
    [RodeoReader]. *)
Record Error := mkError { kind : ErrorKind; route : string }.

(** [ErrorsSet { route: Rodeo::from_iter(routes()).into_reader() }]. *)
Record ErrorsSet := mkErrorsSet { route_set : metrics.RodeoReader }.

Definition error_set : ErrorsSet := mkErrorsSet routes.

Definition ErrorsSet_cards (s : ErrorsSet) : list nat :=
  [cardinality (T := ErrorKind); List.length (route_set s)].

(** The per-dimension codes of an [Error] in the set. *)
Definition ErrorsSet_codes (s : ErrorsSet) (e : Error) : option (list nat) :=
  match encode (kind e), metrics.rodeo_get (route_set s) (route e) with
  | Some k, Some r => Some [k; r]
  | _, _ => None
  end.

(** The composite index of the label group. *)
Definition ErrorsSet_encode (s : ErrorsSet) (e : Error) : option nat :=
  option_map (group_index (ErrorsSet_cards s)) (ErrorsSet_codes s e).

(** [counter_vec.inc(Error { kind, route })]. *)
Definition counter_vec_inc (s : ErrorsSet) (e : Error) (st : Storage nat) : Storage nat :=
  match ErrorsSet_encode s e with
  | Some i => counter_inc i st
  | None => st
  end.

(** [ErrorKind::to_str]. *)
Definition to_str (k : ErrorKind) : string :=
  match k with
  | User => "user"
  | Internal => "internal"
  | Network => "network"
  end.

(** Modelled from the spec: the label value the derive writes for a
    variant under [#[label(rename_all = "kebab-case")]]. *)
Definition ErrorKind_label_value (k : ErrorKind) : string :=
  match k with
  | User => "user"
  | Internal => "internal"
  | Network => "network"
  end.

(** The label pairs of a composite index of [ErrorsSet] (the inverse of
    [ErrorsSet_encode], [kind] least significant). *)
Definition ErrorsSet_labels (s : ErrorsSet) (i : nat) : list (string * LabelValue) :=
  [("kind"%string, LStr (match nth_error ErrorKind_variants (i mod 3) with
                         | Some k => ErrorKind_label_value k
                         | None => ""%string end));
   ("route"%string, LStr (metrics.rodeo_resolve (route_set s)
                           ((i / 3) mod List.length (route_set s))))].

(** [for route in routes() { counter_vec.inc(Error { kind, route }) }] *)
Fixpoint loop_routes (s : ErrorsSet) (kind : ErrorKind) (rs : list string) (st : Storage nat)
    : Storage nat :=
  match rs with
  | [] => st
  | r :: rs' => loop_routes s kind rs' (counter_vec_inc s (mkError kind r) st)
  end.

(** [for &kind in errors() { ... }] *)
Fixpoint loop_errors (s : ErrorsSet) (ks : list ErrorKind) (st : Storage nat) : Storage nat :=
  match ks with
  | [] => st
  | k :: ks' => loop_errors s ks' (loop_routes s k routes st)
  end.

(** [for _ in 0..LOOPS { ... }] *)
Fixpoint loop_loops (s : ErrorsSet) (n : nat) (st : Storage nat) : Storage nat :=
  match n with
  | 0 => st
  | S n' => loop_loops s n' (loop_errors s errors st)
  end.

(** One run of the body of [measured] (dense, [CounterVec::new]) or
    [measured_sparse] ([CounterVec::new_sparse]): the increments, then
    [write_help], [collect_into] and [finish] on the encoder.  Returns the
    counter storage and the text. *)
Definition measured_body (st : Storage nat) (encoder : TextEncoder)
    : Storage nat * list Line :=
  let st' := loop_loops error_set LOOPS st in
  let metric := metrics.with_suffix_Total "http_request_errors" in
  let e := write_help metric "help text" encoder in
  let e := counter_collect_into metric (mkMetricVec (ErrorsSet_labels error_set) st') e in
  (st', fst (finish e)).

End fixed_cardinality.

Module high_cardinality.

Definition LOOPS : nat := 1000.

Inductive ErrorKind := User | Internal | Network.

Definition ErrorKind_eqb (a b : ErrorKind) : bool :=
  match a, b with
  | User, User | Internal, Internal | Network, Network => true
  | _, _ => false
  end.

Definition ErrorKind_variants : list ErrorKind := [User; Internal; Network].

#[global] Instance ErrorKind_label : measured.FixedCardinalityLabel ErrorKind := {
  measured.cardinality := measured.derive_cardinality ErrorKind_variants;
  measured.encode := measured.derive_encode ErrorKind_eqb ErrorKind_variants;
  measured.decode := measured.derive_decode ErrorKind_variants
}.

Definition routes : list string := fixed_cardinality.routes.

Definition errors : list ErrorKind := [User; Internal; Network].

(** [struct Error { kind, route, user_name }]. *)
Record Error := mkError { kind : ErrorKind; route : string; user_name : string }.

(** [ErrorsSet { route: Rodeo::from_iter(routes()).into_reader(),
    user_name: ThreadedRodeo::new() }]: [kind] and [route] are fixed
    dimensions, [user_name] is dynamic (its interner lives in the counter
    vector's [measured.DynCounter]). *)
Definition error_routes : metrics.RodeoReader := routes.

Definition ErrorsSet_cards : list nat :=
  [measured.cardinality (T := ErrorKind); List.length error_routes].

(** The label group of an [Error] ([None]: a route outside the reader,
    a panic). *)
Definition Error_group (e : Error) : option measured.DynGroup :=
  match measured.encode (kind e), metrics.rodeo_get error_routes (route e) with
  | Some k, Some r => Some (measured.mkDynGroup [k; r] [user_name e])
  | _, _ => None
  end.

Section Names.
(** [StdRng] and the fake-name generator [Name(EN).fake_with_rng]. *)
Variable StdRng : Type.
Variable seed_from_u64 : nat -> StdRng.
Variable fake_with_rng : StdRng -> string * StdRng.

(** [std::iter::repeat_with(..).take(n).collect()] *)
Fixpoint repeat_with_take (n : nat) (rng : StdRng) : list string :=
  match n with
  | 0 => []
  | S n' => let '(s, rng') := fake_with_rng rng in s :: repeat_with_take n' rng'
  end.

(** [get_names(thread)]: returns the names and the new value of the
    atomic [thread] counter ([fetch_add(1)]). *)
Definition get_names (thread : nat) : list string * nat :=
  let extra := List.length errors * List.length routes in
  let rng := seed_from_u64 thread in
  (repeat_with_take (LOOPS * extra) rng, S thread).
End Names.

(** [names.next().unwrap()]: [None] is the panic. *)
Definition next_unwrap (names : list string) : option (string * list string) :=
  match names with
  | [] => None
  | n :: names' => Some (n, names')
  end.

(** [for route in routes() { counter_vec.inc(Error { kind, route,
    user_name: names.next().unwrap() }) }]: the label groups passed to
    [inc], in order, and the rest of the iterator. *)
Fixpoint loop_routes (kind : ErrorKind) (rs : list string) (names : list string)
    : option (list Error * list string) :=
  match rs with
  | [] => Some ([], names)
  | r :: rs' =>
      match next_unwrap names with
      | None => None
      | Some (n, names') =>
          match loop_routes kind rs' names' with
          | None => None
          | Some (incs, rest) => Some (mkError kind r n :: incs, rest)
          end
      end
  end.

Fixpoint loop_errors (ks : list ErrorKind) (names : list string)
    : option (list Error * list string) :=
  match ks with
  | [] => Some ([], names)
  | k :: ks' =>
      match loop_routes k routes names with
      | None => None
      | Some (incs1, names') =>
          match loop_errors ks' names' with
          | None => None
          | Some (incs2, rest) => Some (incs1 ++ incs2, rest)
          end
      end
  end.

Fixpoint loop_loops (n : nat) (names : list string) : option (list Error * list string) :=
  match n with
  | 0 => Some ([], names)
  | S n' =>
      match loop_errors errors names with
      | None => None
      | Some (incs1, names') =>
          match loop_loops n' names' with
          | None => None
          | Some (incs2, rest) => Some (incs1 ++ incs2, rest)
          end
      end
  end.

(** The increments of [high_cardinality::measured]'s benchmark body. *)
Definition measured_body (names : list string) : option (list Error * list string) :=
  loop_loops LOOPS names.

End high_cardinality.

(* ------------------------------------------------------------------ *)
(** ** Concurrent increments of one accumulator *)

Module concurrency.

(** Modelled from the spec (§4.3, §5, §9): an [inc] call is two atomic
    steps on the accumulator of its label group: [locate_or_create], a
    single atomic check-and-insert that allocates the accumulator at 0
    when absent (sparse), and the atomic [fetch_add(1)].  Threads run
    their calls one after the other; a schedule interleaves the steps of
    all threads arbitrarily. *)
Inductive Pc := Start | Located.

Record Thread := mkThread { remaining : nat; pc : Pc }.

Record State := mkState { acc : option nat; threads : list Thread }.

Definition acc_value (a : option nat) : nat :=
  match a with Some n => n | None => 0 end.

(** One atomic step of a thread; a finished thread does nothing. *)
Definition step_thread (a : option nat) (t : Thread) : option nat * Thread :=
  match remaining t with
  | 0 => (a, t)
  | S r =>
      match pc t with
      | Start => (Some (acc_value a), mkThread (S r) Located)
      | Located => (Some (acc_value a + 1), mkThread r Start)
      end
  end.

Fixpoint replace_nth {A} (n : nat) (x : A) (xs : list A) : list A :=
  match xs, n with
  | [], _ => []
  | _ :: xs', 0 => x :: xs'
  | y :: xs', S n' => y :: replace_nth n' x xs'
  end.

(** The scheduler runs one step of thread [tid]. *)
Definition step (tid : nat) (s : State) : State :=
  match nth_error (threads s) tid with
  | None => s
  | Some t =>
      let '(a', t') := step_thread (acc s) t in
      mkState a' (replace_nth tid t' (threads s))
  end.

Definition run (sched : list nat) (s : State) : State :=
  fold_left (fun s tid => step tid s) sched s.

(** Thread [i] makes [calls_i] [inc] calls on the same label group. *)
Definition init (calls : list nat) (a0 : option nat) : State :=
  mkState a0 (map (fun n => mkThread n Start) calls).

Definition all_done (s : State) : bool :=
  forallb (fun t => remaining t =? 0) (threads s).

(** The calls not yet added to the accumulator. *)
Definition pending (ts : list Thread) : nat := list_sum (map remaining ts).

End concurrency.

(* ------------------------------------------------------------------ *)
(** ** The engine: metrics, operations, export *)

Module engine.
Import measured.

(** A process's metrics: counter vectors, histogram vectors with their
    thresholds, and a text encoder. *)
Record Engine := mkEngine {
  counters : list (MetricVec nat);
  histograms : list (list float * MetricVec HistogramState);
  enc : TextEncoder
}.

Inductive Op :=
| OpInc (m i : nat)
| OpObserve (h i : nat) (x : float)
| OpWriteHelp (name text : string)
| OpCollectCounter (m : nat) (name : string)
| OpCollectHistogram (h : nat) (name : string)
| OpFinish.

(** Apply [f] to element [n]; out of range leaves the list unchanged. *)
Fixpoint map_nth {A} (n : nat) (f : A -> A) (xs : list A) {struct xs} : list A :=
  match xs, n with
  | [], _ => []
  | x :: xs', 0 => f x :: xs'
  | x :: xs', S n' => x :: map_nth n' f xs'
  end.

Definition metric_update {A} (f : Storage A -> Storage A) (m : MetricVec A) : MetricVec A :=
  mkMetricVec (labels_of m) (f (storage m)).

(** One operation of the engine: [inc] on counter [m] at composite index
    [i], [observe] on histogram [h], [write_help], [collect_into] of a
    counter or a histogram, [finish]. *)
Definition step (op : Op) (e : Engine) : Engine :=
  match op with
  | OpInc m i =>
      mkEngine (map_nth m (metric_update (counter_inc i)) (counters e)) (histograms e) (enc e)
  | OpObserve h i x =>
      mkEngine (counters e)
        (map_nth h (fun '(le, hv) => (le, metric_update (histogram_vec_observe le i x) hv))
           (histograms e))
        (enc e)
  | OpWriteHelp name text => mkEngine (counters e) (histograms e) (write_help name text (enc e))
  | OpCollectCounter m name =>
      match nth_error (counters e) m with
      | Some cv => mkEngine (counters e) (histograms e) (counter_collect_into name cv (enc e))
      | None => e
      end
  | OpCollectHistogram h name =>
      match nth_error (histograms e) h with
      | Some (le, hv) =>
          mkEngine (counters e) (histograms e) (histogram_collect_into name le hv (enc e))
      | None => e
      end
  | OpFinish => mkEngine (counters e) (histograms e) (snd (finish (enc e)))
  end.

Definition run (ops : list Op) (e : Engine) : Engine := fold_left (fun e op => step op e) ops e.

(** The operations that update accumulators. *)
Definition mutates (op : Op) : bool :=
  match op with
  | OpInc _ _ | OpObserve _ _ _ => true
  | _ => false
  end.

(** The value of the accumulator of index [i] of counter [m]. *)
Definition counter_value (m i : nat) (e : Engine) : option nat :=
  match nth_error (counters e) m with
  | Some cv => storage_get i (storage cv)
  | None => None
  end.

(** One scrape: [collect_into] of each metric in turn, then [finish]. *)
Inductive Collector :=
| CCounter (name : string) (m : MetricVec nat)
| CHistogram (name : string) (le : list float) (m : MetricVec HistogramState).

Definition collect (c : Collector) (e : TextEncoder) : TextEncoder :=
  match c with
  | CCounter name m => counter_collect_into name m e
  | CHistogram name le m => histogram_collect_into name le m e
  end.

Definition scrape (cs : list Collector) (e : TextEncoder) : list Line * TextEncoder :=
  finish (fold_left (fun e c => collect c e) cs e).

End engine.

(* ------------------------------------------------------------------ *)
(** ** Reading accumulators *)

Module views.
Import measured.

(** The value of a counter accumulator, 0 while it is not allocated. *)
Definition counter_val (i : nat) (st : Storage nat) : nat :=
  match storage_get i st with Some n => n | None => 0 end.

(** The observation count of a histogram accumulator, 0 while it is not
    allocated. *)
Definition hist_count (i : nat) (st : Storage HistogramState) : nat :=
  match storage_get i st with Some h => count h | None => 0 end.

Definition is_sparse {A} (st : Storage A) : bool :=
  match st with Sparse _ => true | Dense _ => false end.

(** The composite indices the fixed-cardinality benchmark increments in one
    pass of [for &kind in errors() { for route in routes() { .. } }], in
    order. *)
Definition loop_indices : list nat :=
  flat_map (fun k => flat_map (fun r =>
      match fixed_cardinality.ErrorsSet_encode fixed_cardinality.error_set
              (fixed_cardinality.mkError k r) with
      | Some i => [i]
      | None => []
      end) fixed_cardinality.routes) fixed_cardinality.errors.

End views.

(* ------------------------------------------------------------------ *)
(** ** Laws of a fixed-cardinality label codec *)

(** [encode] and [decode] are inverse bijections between the values
    satisfying [valid] and the codes [0, cardinality()): hence
    [cardinality()] is the number of representable values. *)
Definition exact_codec {T : Type} `{measured.FixedCardinalityLabel T} (valid : T -> Prop)
    : Prop :=
  (forall x, valid x ->
     exists c, measured.encode x = Some c /\ c < measured.cardinality (T := T)
               /\ measured.decode c = Some x) /\
  (forall c, c < measured.cardinality (T := T) ->
     exists x, measured.decode c = Some x /\ valid x /\ measured.encode x = Some c).

(** A valid [axum::http::StatusCode]: its [u16] lies in [100, 1000). *)
Definition valid_status (s : metrics.StatusCode) : Prop :=
  100 <= axum_http.as_u16 (metrics.status0 s) < 1000.

(* ================================================================== *)
(** * Theorems *)

Ltac solve_enum_codec :=
  split;
  [ intros x _; destruct x; (eexists; split; [reflexivity | split; [cbn; lia | reflexivity]])
  | intros c Hc; cbn in Hc;
    do 3 (destruct c as [|c]; [eexists; repeat split; reflexivity|]); lia ].

Lemma Method_exact : exact_codec (T := metrics.Method) (fun _ => True).
Proof. solve_enum_codec. Qed.

Lemma fixed_ErrorKind_exact : exact_codec (T := fixed_cardinality.ErrorKind) (fun _ => True).
Proof. solve_enum_codec. Qed.

Lemma high_ErrorKind_exact : exact_codec (T := high_cardinality.ErrorKind) (fun _ => True).
Proof. solve_enum_codec. Qed.

Lemma u16_MAX_ge_1000 : 1000 <= axum_http.u16_MAX.
Proof. apply Nat.leb_le. reflexivity. Qed.

Lemma StatusCode_cardinality_900 : metrics.StatusCode_cardinality = 900.
Proof. unfold metrics.StatusCode_cardinality. rewrite length_seq. reflexivity. Qed.

Lemma StatusCode_decode_in_range (c : nat) :
  c < 900 -> metrics.StatusCode_decode c = Some (metrics.mkStatusCode (axum_http.mkStatusCode (c + 100))).
Proof.
  intros Hc. pose proof u16_MAX_ge_1000.
  unfold metrics.StatusCode_decode, axum_http.StatusCode_from_u16.
  replace (axum_http.u16_MAX <? c) with false by (symmetry; apply Nat.ltb_ge; lia).
  replace (axum_http.u16_MAX <? c + 100) with false by (symmetry; apply Nat.ltb_ge; lia).
  replace ((100 <=? c + 100) && (c + 100 <? 1000)) with true.
  - reflexivity.
  - symmetry. apply andb_true_iff. split; [apply Nat.leb_le | apply Nat.ltb_lt]; lia.
Qed.

Lemma StatusCode_exact : exact_codec valid_status.
Proof.
  unfold exact_codec.
  cbn [measured.cardinality measured.encode measured.decode metrics.StatusCode_label].
  rewrite StatusCode_cardinality_900. split.
  - intros [[n]] Hv. unfold valid_status in Hv; cbn in Hv.
    exists (n - 100).
    unfold metrics.StatusCode_encode; cbn [metrics.status0 axum_http.as_u16].
    replace (n <? 100) with false by (symmetry; apply Nat.ltb_ge; lia).
    repeat split; [lia|].
    rewrite StatusCode_decode_in_range by lia.
    do 3 f_equal. lia.
  - intros c Hc. eexists. split; [apply StatusCode_decode_in_range; exact Hc|].
    unfold valid_status, metrics.StatusCode_encode; cbn [metrics.status0 axum_http.as_u16].
    split; [lia|].
    replace (c + 100 <? 100) with false by (symmetry; apply Nat.ltb_ge; lia).
    f_equal. lia.
Qed.

(** C1: every fixed-cardinality label type of the repository ([Method] of
    the axum example, [ErrorKind] of both benchmarks, [StatusCode]) has
    [encode] and [decode] exact inverses between its values and the codes
    [0, cardinality()), so [cardinality()] is the number of its values; for
    [StatusCode], [cardinality() = 900], every status code in [100, 1000)
    round-trips through [decode(encode(s))] without panicking, and every
    code [c < 900] round-trips through [encode(decode(c))]. *)
Theorem C1_fixed_labels_exact :
  exact_codec (T := metrics.Method) (fun _ => True) /\
  exact_codec (T := fixed_cardinality.ErrorKind) (fun _ => True) /\
  exact_codec (T := high_cardinality.ErrorKind) (fun _ => True) /\
  exact_codec valid_status /\
  measured.cardinality (T := metrics.StatusCode) = 900 /\
  (forall s, valid_status s ->
     match metrics.StatusCode_encode s with
     | Some c => metrics.StatusCode_decode c = Some s
     | None => False
     end) /\
  (forall c, c < 900 ->
     match metrics.StatusCode_decode c with
     | Some s => metrics.StatusCode_encode s = Some c
     | None => False
     end).
Proof.
  split; [exact Method_exact|]. split; [exact fixed_ErrorKind_exact|].
  split; [exact high_ErrorKind_exact|]. split; [exact StatusCode_exact|].
  split; [exact StatusCode_cardinality_900|].
  pose proof StatusCode_exact as [Hed Hde].
  cbn [measured.cardinality measured.encode measured.decode metrics.StatusCode_label] in *.
  rewrite StatusCode_cardinality_900 in *.
  split.
  - intros s Hs. destruct (Hed s Hs) as (c & -> & _ & ->). reflexivity.
  - intros c Hc. destruct (Hde c Hc) as (x & -> & _ & ->). reflexivity.
Qed.

(** C9: [Method::from] is total and maps [GET] to [Get], [POST] to [Post]
    and every other method, extension methods included, to [Other]. *)
Theorem C9_Method_from_total :
  forall value : axum_http.Method,
    (value = axum_http.GET -> metrics.Method_from value = metrics.Get) /\
    (value = axum_http.POST -> metrics.Method_from value = metrics.Post) /\
    (value <> axum_http.GET -> value <> axum_http.POST ->
       metrics.Method_from value = metrics.Other) /\
    In (metrics.Method_from value) metrics.Method_variants.
Proof.
  intros value.
  repeat split; intros; subst; try reflexivity;
    destruct value; cbn; try reflexivity; try congruence; tauto.
Qed.

Section Names_length.
Import high_cardinality.

Lemma repeat_with_take_length (StdRng : Type) (fake : StdRng -> string * StdRng) :
  forall n rng, List.length (repeat_with_take StdRng fake n rng) = n.
Proof.
  induction n as [|n IH]; intros rng; cbn; [reflexivity|].
  destruct (fake rng) as [s rng']. cbn. rewrite IH. reflexivity.
Qed.

Lemma loop_routes_consumes (k : ErrorKind) :
  forall rs names, List.length rs <= List.length names ->
  exists incs, loop_routes k rs names = Some (incs, skipn (List.length rs) names)
               /\ List.length incs = List.length rs.
Proof.
  induction rs as [|r rs IH]; intros names Hlen; cbn.
  - exists []. split; reflexivity.
  - destruct names as [|n names]; cbn in Hlen; [lia|]. cbn.
    destruct (IH names) as (incs & -> & Hl); [lia|].
    eexists. split; [reflexivity|]. cbn. rewrite Hl. reflexivity.
Qed.

Lemma loop_errors_consumes :
  forall ks names, List.length ks * List.length routes <= List.length names ->
  exists incs,
    loop_errors ks names = Some (incs, skipn (List.length ks * List.length routes) names)
    /\ List.length incs = List.length ks * List.length routes.
Proof.
  induction ks as [|k ks IH]; intros names Hlen; cbn [loop_errors List.length].
  - exists []. split; reflexivity.
  - destruct (loop_routes_consumes k routes names) as (incs1 & -> & Hl1); [cbn in *; lia|].
    destruct (IH (skipn (List.length routes) names)) as (incs2 & -> & Hl2).
    { rewrite length_skipn. cbn in *. lia. }
    eexists. split.
    + rewrite skipn_skipn. do 3 f_equal. cbn. lia.
    + rewrite length_app, Hl1, Hl2. cbn. lia.
Qed.

Lemma loop_loops_consumes :
  forall n names, n * (List.length errors * List.length routes) <= List.length names ->
  exists incs,
    loop_loops n names = Some (incs, skipn (n * (List.length errors * List.length routes)) names)
    /\ List.length incs = n * (List.length errors * List.length routes).
Proof.
  induction n as [|n IH]; intros names Hlen; cbn [loop_loops].
  - exists []. split; reflexivity.
  - destruct (loop_errors_consumes errors names) as (incs1 & -> & Hl1); [cbn in *; lia|].
    destruct (IH (skipn (List.length errors * List.length routes) names)) as (incs2 & -> & Hl2).
    { rewrite length_skipn. cbn in *. lia. }
    eexists. split.
    + rewrite skipn_skipn. do 3 f_equal. cbn. lia.
    + rewrite length_app, Hl1, Hl2. cbn. lia.
Qed.
End Names_length.

Lemma firstn_firstn_skipn {A} (a b : nat) :
  forall l : list A, firstn a l ++ firstn b (skipn a l) = firstn (a + b) l.
Proof.
  induction a as [|a IH]; intros l; [reflexivity|].
  destruct l as [|x l]; cbn; [rewrite firstn_nil; reflexivity|].
  rewrite IH. reflexivity.
Qed.

Section High_bench.
Import high_cardinality.

Lemma hc_loop_routes_spec (k : ErrorKind) :
  forall rs names incs rest, loop_routes k rs names = Some (incs, rest) ->
  map user_name incs = firstn (List.length rs) names /\
  map (fun e => (kind e, route e)) incs = map (pair k) rs /\
  rest = skipn (List.length rs) names.
Proof.
  induction rs as [|r rs IH]; intros names incs rest H; cbn in H.
  - injection H as <- <-. split; [|split]; reflexivity.
  - destruct names as [|n names]; [discriminate|]. cbn in H.
    destruct (loop_routes k rs names) as [[incs' rest']|] eqn:E; [|discriminate].
    injection H as <- <-. destruct (IH _ _ _ E) as (H1 & H2 & H3).
    cbn. rewrite H1, H2, H3. split; [|split]; reflexivity.
Qed.

Lemma hc_loop_routes_none (k : ErrorKind) :
  forall rs names, loop_routes k rs names = None <-> List.length names < List.length rs.
Proof.
  induction rs as [|r rs IH]; intros names; cbn.
  - split; [discriminate | lia].
  - destruct names as [|n names]; cbn; [split; [lia | reflexivity]|].
    specialize (IH names).
    destruct (loop_routes k rs names) as [[incs rest]|]; split; intros H.
    + discriminate.
    + assert (H' : List.length names < List.length rs) by lia.
      apply IH in H'. discriminate.
    + apply IH in H. lia.
    + reflexivity.
Qed.

Lemma hc_loop_errors_spec :
  forall ks names incs rest, loop_errors ks names = Some (incs, rest) ->
  map user_name incs = firstn (List.length ks * List.length routes) names /\
  map (fun e => (kind e, route e)) incs = flat_map (fun k => map (pair k) routes) ks /\
  rest = skipn (List.length ks * List.length routes) names.
Proof.
  induction ks as [|k ks IH]; intros names incs rest H; cbn [loop_errors] in H.
  - injection H as <- <-. split; [|split]; reflexivity.
  - destruct (loop_routes k routes names) as [[incs1 names']|] eqn:E1; [|discriminate].
    destruct (loop_errors ks names') as [[incs2 rest']|] eqn:E2; [|discriminate].
    injection H as <- <-.
    destruct (hc_loop_routes_spec k _ _ _ _ E1) as (A1 & B1 & C1).
    destruct (IH _ _ _ E2) as (A2 & B2 & C2). subst names'.
    change (List.length (k :: ks) * List.length routes)
      with (List.length routes + List.length ks * List.length routes).
    rewrite !map_app, A1, B1, A2, B2, C2, skipn_skipn, firstn_firstn_skipn.
    split; [|split]; [reflexivity | reflexivity |]. f_equal. lia.
Qed.

Lemma hc_loop_errors_none :
  forall ks names, loop_errors ks names = None <->
                   List.length names < List.length ks * List.length routes.
Proof.
  induction ks as [|k ks IH]; intros names; cbn [loop_errors].
  - split; [discriminate | cbn; lia].
  - change (List.length (k :: ks) * List.length routes)
      with (List.length routes + List.length ks * List.length routes).
    destruct (loop_routes k routes names) as [[incs1 names']|] eqn:E1.
    + destruct (hc_loop_routes_spec k _ _ _ _ E1) as (_ & _ & ->).
      assert (Hge : List.length routes <= List.length names).
      { destruct (Nat.le_gt_cases (List.length routes) (List.length names)) as [?|Hlt];
          [assumption|]. apply (hc_loop_routes_none k) in Hlt. congruence. }
      specialize (IH (skipn (List.length routes) names)).
      rewrite length_skipn in IH.
      destruct (loop_errors ks (skipn (List.length routes) names)) as [[incs2 rest]|].
      * split; [discriminate|]. intros H.
        assert (Hc : Some (incs2, rest) = None) by (apply IH; lia). discriminate.
      * split; [intros _; apply proj1 in IH; specialize (IH eq_refl); lia | reflexivity].
    + apply hc_loop_routes_none in E1. split; [intros _; lia | reflexivity].
Qed.

Lemma hc_loop_loops_spec :
  forall n names incs rest, loop_loops n names = Some (incs, rest) ->
  map user_name incs = firstn (n * (List.length errors * List.length routes)) names /\
  map (fun e => (kind e, route e)) incs
    = List.concat (repeat (flat_map (fun k => map (pair k) routes) errors) n) /\
  rest = skipn (n * (List.length errors * List.length routes)) names.
Proof.
  induction n as [|n IH]; intros names incs rest H; cbn [loop_loops] in H.
  - injection H as <- <-. split; [|split]; reflexivity.
  - destruct (loop_errors errors names) as [[incs1 names']|] eqn:E1; [|discriminate].
    destruct (loop_loops n names') as [[incs2 rest']|] eqn:E2; [|discriminate].
    injection H as <- <-.
    destruct (hc_loop_errors_spec _ _ _ _ E1) as (A1 & B1 & C1).
    destruct (IH _ _ _ E2) as (A2 & B2 & C2). subst names'.
    change (S n * (List.length errors * List.length routes))
      with (List.length errors * List.length routes + n * (List.length errors * List.length routes)).
    rewrite !map_app, A1, B1, A2, B2, C2, skipn_skipn, firstn_firstn_skipn.
    split; [|split]; [reflexivity | reflexivity |]. f_equal. lia.
Qed.

Lemma hc_loop_loops_none :
  forall n names, loop_loops n names = None <->
                  List.length names < n * (List.length errors * List.length routes).
Proof.
  induction n as [|n IH]; intros names; cbn [loop_loops].
  - split; [discriminate | cbn; lia].
  - change (S n * (List.length errors * List.length routes))
      with (List.length errors * List.length routes + n * (List.length errors * List.length routes)).
    destruct (loop_errors errors names) as [[incs1 names']|] eqn:E1.
    + destruct (hc_loop_errors_spec _ _ _ _ E1) as (_ & _ & ->).
      assert (Hge : List.length errors * List.length routes <= List.length names).
      { destruct (Nat.le_gt_cases (List.length errors * List.length routes)
                    (List.length names)) as [?|Hlt]; [assumption|].
        apply hc_loop_errors_none in Hlt. congruence. }
      specialize (IH (skipn (List.length errors * List.length routes) names)).
      rewrite length_skipn in IH.
      destruct (loop_loops n (skipn (List.length errors * List.length routes) names))
        as [[incs2 rest]|].
      * split; [discriminate|]. intros H.
        assert (Hc : Some (incs2, rest) = None) by (apply IH; lia). discriminate.
      * split; [intros _; apply proj1 in IH; specialize (IH eq_refl); lia | reflexivity].
    + apply hc_loop_errors_none in E1. split; [intros _; lia | reflexivity].
Qed.
End High_bench.

(** C10: in the high-cardinality benchmark, [get_names] returns exactly
    [LOOPS * |errors()| * |routes()| = 1000 * 3 * 6 = 18000] names, whatever
    the random generator and the thread counter, and the benchmark body
    takes exactly that many: every [names.next().unwrap()] succeeds, the
    body makes 18000 [inc] calls, and the iterator ends empty. *)
Theorem C10_get_names_suffices (StdRng : Type) (seed_from_u64 : nat -> StdRng)
    (fake_with_rng : StdRng -> string * StdRng) (thread : nat) :
  let names := fst (high_cardinality.get_names StdRng seed_from_u64 fake_with_rng thread) in
  List.length names = 18000 /\
  high_cardinality.LOOPS * List.length high_cardinality.errors
    * List.length high_cardinality.routes = 18000 /\
  exists incs, high_cardinality.measured_body names = Some (incs, [])
               /\ List.length incs = 18000.
Proof.
  cbv zeta.
  assert (Hn : List.length (fst (high_cardinality.get_names StdRng seed_from_u64
                                  fake_with_rng thread)) = 18000).
  { unfold high_cardinality.get_names. cbn [fst].
    rewrite repeat_with_take_length. reflexivity. }
  split; [exact Hn|]. split; [reflexivity|].
  unfold high_cardinality.measured_body.
  destruct (loop_loops_consumes high_cardinality.LOOPS
              (fst (high_cardinality.get_names StdRng seed_from_u64 fake_with_rng thread)))
    as (incs & Hrun & Hl).
  { rewrite Hn. reflexivity. }
  exists incs. rewrite Hrun. split.
  - f_equal. f_equal. apply skipn_all2. rewrite Hn. reflexivity.
  - rewrite Hl. reflexivity.
Qed.

Lemma observe_buckets_length (le : list float) (x : float) :
  forall bs, List.length (measured.observe_buckets le bs x) = List.length bs.
Proof.
  induction le as [|t le IH]; intros [|b bs]; cbn; try reflexivity.
  rewrite IH. reflexivity.
Qed.

Lemma observe_buckets_nth (le : list float) (x : float) :
  forall bs i t b, nth_error le i = Some t -> nth_error bs i = Some b ->
  nth_error (measured.observe_buckets le bs x) i = Some (if PrimFloat.leb x t then S b else b).
Proof.
  induction le as [|t' le IH]; intros bs i t b Ht Hb.
  - destruct i; discriminate.
  - destruct bs as [|b' bs]; [destruct i; discriminate|].
    destruct i as [|i]; cbn in *.
    + injection Ht as <-. injection Hb as <-. reflexivity.
    + apply IH; assumption.
Qed.

(** C3 (amended): with [Thresholds::exponential_buckets(0.1, 2.0)] and six
    buckets, as in [AppMetrics::new], the thresholds are
    [0.1, 0.2, 0.4, 0.8, 1.6, 3.2]; one [observe] of [0.5] on a fresh label
    combination gives the bucket counts [0, 0, 0, 1, 1, 1] (the [le="0.4"]
    bucket stays at 0 since [0.5 > 0.4]), [_sum = 0.5] and [_count = 1].  In general [observe(x)] adds one to exactly the buckets
    whose threshold is [>= x], one to the count, and [x] to the sum. *)
Theorem C3_histogram_observe :
  (forall paths,
     metrics.http_request_duration_le (metrics.AppMetrics_new paths)
     = [0.1; 0.2; 0.4; 0.8; 1.6; 3.2]%float) /\
  (forall paths i,
     let le := metrics.http_request_duration_le (metrics.AppMetrics_new paths) in
     measured.storage_get i
       (measured.histogram_vec_observe le i 0.5
          (measured.storage (metrics.http_request_duration (metrics.AppMetrics_new paths))))
     = Some (measured.mkHistogramState [0; 0; 0; 1; 1; 1] 1 0.5)) /\
  (forall le x h,
     let h' := measured.histogram_observe le x h in
     List.length (measured.buckets h') = List.length (measured.buckets h) /\
     (forall i t b, nth_error le i = Some t -> nth_error (measured.buckets h) i = Some b ->
        nth_error (measured.buckets h') i = Some (if PrimFloat.leb x t then S b else b)) /\
     measured.count h' = S (measured.count h) /\
     measured.sum h' = (measured.sum h + x)%float).
Proof.
  split; [intros paths; reflexivity|].
  split.
  - intros paths i. cbn. rewrite Nat.eqb_refl. reflexivity.
  - intros le x h. cbv zeta. split; [apply observe_buckets_length|].
    split; [intros i t b Ht Hb; apply observe_buckets_nth; assumption|].
    split; reflexivity.
Qed.

(** C3 counterexample: observing [0.5] does not increment the [le="0.4"]
    bucket, so the counts [0, 0, 1, 1, 1, 1] of the claim are not reached. *)
Lemma C3_le_0_4_not_incremented :
  let le := metrics.http_request_duration_le (metrics.AppMetrics_new []) in
  measured.storage_get 0
    (measured.histogram_vec_observe le 0 0.5
       (measured.storage (metrics.http_request_duration (metrics.AppMetrics_new []))))
  <> Some (measured.mkHistogramState [0; 0; 1; 1; 1; 1] 1 0.5).
Proof. vm_compute. discriminate. Qed.

Section Concurrent_inc.
Import concurrency.

Lemma step_thread_conserves (a : option nat) (t : Thread) :
  acc_value (fst (step_thread a t)) + remaining (snd (step_thread a t))
  = acc_value a + remaining t.
Proof.
  destruct t as [[|r] [|]]; cbn; lia.
Qed.

Lemma pending_replace_nth :
  forall ts tid t t', nth_error ts tid = Some t ->
  pending (replace_nth tid t' ts) + remaining t = pending ts + remaining t'.
Proof.
  unfold pending.
  induction ts as [|x ts IH]; intros [|tid] t t' Hn; cbn in Hn; try discriminate.
  - injection Hn as <-. simpl. lia.
  - simpl. specialize (IH tid t t' Hn). lia.
Qed.

(** The invariant of every schedule: the accumulator plus the calls not
    yet added is constant. *)
Lemma step_conserves (tid : nat) (s : State) :
  acc_value (acc (step tid s)) + pending (threads (step tid s))
  = acc_value (acc s) + pending (threads s).
Proof.
  unfold step.
  destruct (nth_error (threads s) tid) as [t|] eqn:Hn; [|reflexivity].
  pose proof (step_thread_conserves (acc s) t) as Hc.
  destruct (step_thread (acc s) t) as [a' t'] eqn:Hs. cbn [acc threads fst snd] in *.
  pose proof (pending_replace_nth (threads s) tid t t' Hn). lia.
Qed.

Lemma run_conserves :
  forall sched s, acc_value (acc (run sched s)) + pending (threads (run sched s))
                  = acc_value (acc s) + pending (threads s).
Proof.
  induction sched as [|tid sched IH]; intros s; cbn; [reflexivity|].
  rewrite IH. apply step_conserves.
Qed.

Lemma all_done_pending (s : State) : all_done s = true -> pending (threads s) = 0.
Proof.
  unfold all_done, pending. induction (threads s) as [|t ts IH]; [reflexivity|].
  intros H. simpl in H. apply andb_true_iff in H as [H1 H2].
  apply Nat.eqb_eq in H1. specialize (IH H2). simpl. lia.
Qed.
End Concurrent_inc.

(** C2: whatever the number of threads, the number of [inc] calls each
    makes on one label group ([calls]) and the interleaving of their atomic
    steps ([sched]), once all calls have completed the accumulator of that
    label group (dense: allocated at 0; sparse: absent at first) holds
    exactly the total number [N] of calls: nothing lost, nothing counted
    twice. *)
Theorem C2_concurrent_inc_exact (calls sched : list nat) (a0 : option nat)
    (Hfresh : a0 = None \/ a0 = Some 0)
    (Hdone : concurrency.all_done (concurrency.run sched (concurrency.init calls a0)) = true) :
  let N := list_sum calls in
  concurrency.acc_value (concurrency.acc (concurrency.run sched (concurrency.init calls a0))) = N /\
  (0 < N -> concurrency.acc (concurrency.run sched (concurrency.init calls a0)) = Some N).
Proof.
  cbv zeta.
  pose proof (run_conserves sched (concurrency.init calls a0)) as Hc.
  rewrite (all_done_pending _ Hdone) in Hc.
  assert (Hinit : concurrency.pending (concurrency.threads (concurrency.init calls a0)) = list_sum calls).
  { unfold concurrency.pending, concurrency.init. cbn. rewrite map_map. cbn. rewrite map_id. reflexivity. }
  assert (H0 : concurrency.acc_value a0 = 0) by (destruct Hfresh as [-> | ->]; reflexivity).
  cbn [concurrency.acc concurrency.init] in Hc. rewrite Hinit, H0 in Hc.
  split; [lia|].
  intros Hpos.
  destruct (concurrency.acc (concurrency.run sched (concurrency.init calls a0))) as [n|] eqn:Ha;
    cbn in Hc; [f_equal; lia | lia].
Qed.

(** Witness of C2: two threads making two and one calls on a fresh sparse
    accumulator, interleaved. *)
Lemma C2_witness :
  concurrency.all_done (concurrency.run [0; 1; 0; 1; 0; 0] (concurrency.init [2; 1] None)) = true /\
  concurrency.acc (concurrency.run [0; 1; 0; 1; 0; 0] (concurrency.init [2; 1] None)) = Some 3.
Proof.
  split; [reflexivity|].
  apply (C2_concurrent_inc_exact [2; 1] [0; 1; 0; 1; 0; 0] None); [left; reflexivity | reflexivity | cbn; lia].
Defined.

Section Storage_facts.
Import measured.

Lemma slot_update_nth {A} (f : A -> A) :
  forall xs i j, nth_error (slot_update j f xs) i =
    match nth_error xs i with Some x => Some (if i =? j then f x else x) | None => None end.
Proof.
  induction xs as [|x xs IH]; intros i j; [destruct i; reflexivity|].
  destruct i as [|i], j as [|j]; cbn; try reflexivity.
  - destruct (nth_error xs i); reflexivity.
  - apply IH.
Qed.

Lemma assoc_upsert_find {A} (init : A) (f : A -> A) :
  forall es i j, assoc_find i (assoc_upsert j init f es) =
    if i =? j then Some (match assoc_find i es with Some a => f a | None => f init end)
    else assoc_find i es.
Proof.
  induction es as [|[k a] es IH]; intros i j; cbn.
  - destruct (i =? j); reflexivity.
  - destruct (j =? k) eqn:Hjk; cbn.
    + apply Nat.eqb_eq in Hjk; subst k.
      destruct (i =? j); reflexivity.
    + destruct (i =? k) eqn:Hik.
      * apply Nat.eqb_eq in Hik; subst k.
        destruct (i =? j) eqn:Hij; [apply Nat.eqb_eq in Hij; subst; rewrite Nat.eqb_refl in Hjk; discriminate|].
        reflexivity.
      * rewrite IH. reflexivity.
Qed.

Lemma counter_inc_mono (j : nat) (st : Storage nat) (i a : nat) :
  storage_get i st = Some a -> exists b, storage_get i (counter_inc j st) = Some b /\ a <= b.
Proof.
  intros H. destruct st as [xs|es]; cbn in *.
  - rewrite slot_update_nth, H. eexists. split; [reflexivity|]. destruct (i =? j); lia.
  - rewrite assoc_upsert_find, H. destruct (i =? j); eexists; (split; [reflexivity|lia]).
Qed.

Lemma map_nth_nth {A} (f : A -> A) :
  forall xs n m, nth_error (engine.map_nth n f xs) m =
    match nth_error xs m with Some x => Some (if m =? n then f x else x) | None => None end.
Proof.
  induction xs as [|x xs IH]; intros n m; [destruct m; reflexivity|].
  destruct m as [|m], n as [|n]; cbn; try reflexivity.
  - destruct (nth_error xs m); reflexivity.
  - apply IH.
Qed.
End Storage_facts.

Lemma engine_step_mono (op : engine.Op) (e : engine.Engine) (m i a : nat) :
  engine.counter_value m i e = Some a ->
  exists b, engine.counter_value m i (engine.step op e) = Some b /\ a <= b.
Proof.
  intros H. unfold engine.counter_value in *.
  destruct op as [m' i' | h i' x | name text | m' name | h name |]; cbn [engine.step].
  - cbn [engine.counters]. rewrite map_nth_nth.
    destruct (nth_error (engine.counters e) m) as [cv|]; [|discriminate].
    destruct (m =? m'); [|exists a; split; [exact H | lia]].
    cbn. apply counter_inc_mono. exact H.
  - exists a. split; [exact H | lia].
  - exists a. split; [exact H | lia].
  - destruct (nth_error (engine.counters e) m'); exists a; split; try exact H; lia.
  - destruct (nth_error (engine.histograms e) h) as [[le hv]|]; exists a; split; try exact H; lia.
  - exists a. split; [exact H | lia].
Qed.

(** C4: a counter accumulator starts at zero (every slot of a new dense
    vector; a sparse entry is created at 0 by its first [inc], which leaves
    it at 1), and no sequence of engine operations ([inc] on any counter,
    [observe] on any histogram, [write_help], [collect_into], [finish])
    ever decreases it. *)
Theorem C4_counter_monotone :
  (forall card i, i < card -> measured.storage_get i (measured.counter_new card) = Some 0) /\
  (forall i, measured.storage_get i measured.counter_new_sparse = None) /\
  (forall es i, measured.assoc_find i es = None ->
     measured.storage_get i (measured.counter_inc i (measured.Sparse es)) = Some 1) /\
  (forall ops e m i a, engine.counter_value m i e = Some a ->
     exists b, engine.counter_value m i (engine.run ops e) = Some b /\ a <= b).
Proof.
  split.
  { intros card i Hi. cbn. apply nth_error_repeat. exact Hi. }
  split; [reflexivity|].
  split.
  { intros es i H. cbn. rewrite assoc_upsert_find, H, Nat.eqb_refl. reflexivity. }
  induction ops as [|op ops IH]; intros e m i a H; cbn.
  - exists a. split; [exact H | lia].
  - destruct (engine_step_mono op e m i a H) as (b & Hb & Hab).
    destruct (IH _ m i b Hb) as (c & Hc & Hbc).
    exists c. split; [exact Hc | lia].
Qed.

Lemma read_only_step (op : engine.Op) (e : engine.Engine) :
  engine.mutates op = false ->
  engine.counters (engine.step op e) = engine.counters e /\
  engine.histograms (engine.step op e) = engine.histograms e.
Proof.
  intros H. destruct op as [ | | | m name | h name | ]; try discriminate; cbn; try (split; reflexivity).
  - destruct (nth_error (engine.counters e) m); split; reflexivity.
  - destruct (nth_error (engine.histograms e) h) as [[le hv]|]; split; reflexivity.
Qed.

Lemma read_only_run :
  forall ops e, forallb (fun op => negb (engine.mutates op)) ops = true ->
  engine.counters (engine.run ops e) = engine.counters e /\
  engine.histograms (engine.run ops e) = engine.histograms e.
Proof.
  induction ops as [|op ops IH]; intros e H; [split; reflexivity|].
  cbn [forallb] in H. apply andb_true_iff in H as [H1 H2]. apply negb_true_iff in H1.
  change (engine.run (op :: ops) e) with (engine.run ops (engine.step op e)).
  destruct (read_only_step op e H1) as [Hc Hh].
  destruct (IH (engine.step op e) H2) as [Hc' Hh'].
  split; congruence.
Qed.

(** C5: export is deterministic.  In the engine: a pass of read-only
    operations ([write_help], [collect_into] of dense or sparse counters
    and histograms) from an empty encoder, then [finish], then the same
    pass again, writes the same text both times.  In the axum example:
    calling [handler] twice with no update in between returns the same
    body. *)
Theorem C5_export_deterministic :
  (forall ops e,
     forallb (fun op => negb (engine.mutates op)) ops = true ->
     measured.buf (engine.enc e) = [] ->
     measured.buf (engine.enc (engine.run ops (engine.run (ops ++ [engine.OpFinish]) e)))
     = measured.buf (engine.enc (engine.run ops e))) /\
  (forall s, measured.buf (metrics.encoder s) = [] ->
     metrics.resp_body (fst (metrics.handler (snd (metrics.handler s))))
     = metrics.resp_body (fst (metrics.handler s))).
Proof.
  split.
  - intros ops e Hro Hempty.
    assert (He : engine.run (ops ++ [engine.OpFinish]) e = e).
    { unfold engine.run. rewrite fold_left_app. fold (engine.run ops e). cbn.
      destruct (read_only_run ops e Hro) as [Hc Hh].
      rewrite Hc, Hh. destruct e as [cs hs [b]]. cbn in *. subst b. reflexivity. }
    rewrite He. reflexivity.
  - intros [[b] rq rs hd le] Hb. cbn in Hb. subst b. reflexivity.
Qed.

(** Witness of C5: one dense and one sparse counter, a help line and two
    collections. *)
Lemma C5_witness :
  let e := engine.mkEngine
             [measured.mkMetricVec (fun _ => []) (measured.counter_inc 1 (measured.counter_new 3));
              measured.mkMetricVec (fun _ => []) (measured.counter_inc 7 measured.counter_new_sparse)]
             [] measured.TextEncoder_new in
  let ops := [engine.OpWriteHelp "errors" "help text";
              engine.OpCollectCounter 0 "errors"; engine.OpCollectCounter 1 "errors"] in
  measured.buf (engine.enc (engine.run ops (engine.run (ops ++ [engine.OpFinish]) e)))
  = measured.buf (engine.enc (engine.run ops e)).
Proof.
  intros e ops.
  apply (proj1 C5_export_deterministic); reflexivity.
Defined.

Section Label_groups.
Import measured.

Lemma group_index_lt :
  forall cards codes, fits cards codes = true -> group_index cards codes < group_cardinality cards.
Proof.
  induction cards as [|c cs IH]; intros [|v vs] H; cbn in *; try discriminate; [lia|].
  apply andb_true_iff in H as [Hv Hvs]. apply Nat.ltb_lt in Hv.
  specialize (IH vs Hvs).
  assert (c * S (group_index cs vs) <= c * fold_right Nat.mul 1 cs)
    by (apply Nat.mul_le_mono_l; exact IH).
  lia.
Qed.

Lemma group_index_inj :
  forall cards v1 v2, fits cards v1 = true -> fits cards v2 = true ->
  group_index cards v1 = group_index cards v2 -> v1 = v2.
Proof.
  induction cards as [|c cs IH]; intros [|a r1] [|b r2] H1 H2 Heq; cbn in *;
    try discriminate; try reflexivity.
  apply andb_true_iff in H1 as [Ha Hr1]. apply andb_true_iff in H2 as [Hb Hr2].
  apply Nat.ltb_lt in Ha, Hb.
  assert (Hg : group_index cs r1 = group_index cs r2).
  { destruct (lt_eq_lt_dec (group_index cs r1) (group_index cs r2)) as [[Hlt|Hg]|Hgt];
      [| exact Hg |]; exfalso.
    - assert (c * S (group_index cs r1) <= c * group_index cs r2) by (apply Nat.mul_le_mono_l; lia).
      nia.
    - assert (c * S (group_index cs r2) <= c * group_index cs r1) by (apply Nat.mul_le_mono_l; lia).
      nia. }
  assert (a = b) by nia. subst b.
  f_equal. apply IH; assumption.
Qed.

Lemma counter_inc_other (j k : nat) (st : Storage nat) :
  k <> j -> storage_get k (counter_inc j st) = storage_get k st.
Proof.
  intros Hkj. apply Nat.eqb_neq in Hkj. destruct st as [xs|es]; cbn.
  - rewrite slot_update_nth, Hkj. destruct (nth_error xs k); reflexivity.
  - rewrite assoc_upsert_find, Hkj. reflexivity.
Qed.

Lemma iter_inc_other (j k N : nat) (st : Storage nat) :
  k <> j -> storage_get k (Nat.iter N (counter_inc j) st) = storage_get k st.
Proof.
  intros Hkj. induction N as [|N IH]; cbn; [reflexivity|].
  rewrite counter_inc_other by exact Hkj. exact IH.
Qed.
End Label_groups.

Section Dyn_groups.
Import measured.

Lemma index_of_resolve (s : string) :
  forall tbl h, index_of s tbl = Some h -> resolve tbl h = Some s.
Proof.
  induction tbl as [|t tbl IH]; intros h H; cbn in H; [discriminate|].
  destruct (String.eqb s t) eqn:Hs.
  - apply String.eqb_eq in Hs. subst. injection H as <-. reflexivity.
  - destruct (index_of s tbl) as [h'|] eqn:Hh; cbn in H; [|discriminate].
    injection H as <-. apply IH. reflexivity.
Qed.

Lemma resolve_app (tbl suf : Interner) (h : nat) (s : string) :
  resolve tbl h = Some s -> resolve (tbl ++ suf) h = Some s.
Proof.
  unfold resolve. intros H. rewrite nth_error_app1; [exact H|].
  apply nth_error_Some. rewrite H. discriminate.
Qed.

Lemma resolve_all_app (tbl suf : Interner) :
  forall hs ss, map (resolve tbl) hs = map Some ss -> map (resolve (tbl ++ suf)) hs = map Some ss.
Proof.
  induction hs as [|h hs IH]; intros [|s ss] H; cbn in *; try discriminate; [reflexivity|].
  injection H as Hh Hhs. rewrite (resolve_app _ _ _ _ Hh), (IH _ Hhs). reflexivity.
Qed.

Lemma intern_spec (s : string) (tbl : Interner) :
  exists suf, snd (intern s tbl) = tbl ++ suf /\
              resolve (snd (intern s tbl)) (fst (intern s tbl)) = Some s.
Proof.
  unfold intern. destruct (index_of s tbl) as [h|] eqn:Hh; cbn.
  - exists []. rewrite app_nil_r. split; [reflexivity|]. apply index_of_resolve. exact Hh.
  - exists [s]. split; [reflexivity|]. unfold resolve.
    rewrite nth_error_app2 by lia. rewrite Nat.sub_diag. reflexivity.
Qed.

Lemma intern_all_spec (ss : list string) :
  forall tbl, exists suf, snd (intern_all ss tbl) = tbl ++ suf /\
    map (resolve (snd (intern_all ss tbl))) (fst (intern_all ss tbl)) = map Some ss.
Proof.
  induction ss as [|s ss IH]; intros tbl; cbn.
  - exists []. rewrite app_nil_r. split; reflexivity.
  - destruct (intern_spec s tbl) as (suf1 & Ht1 & Hr1).
    destruct (intern s tbl) as [h tbl1]. cbn [fst snd] in *.
    destruct (IH tbl1) as (suf2 & Ht2 & Hr2).
    destruct (intern_all ss tbl1) as [hs tbl2]. cbn [fst snd] in *.
    exists (suf1 ++ suf2). split; [rewrite Ht2, Ht1, app_assoc; reflexivity|].
    cbn [map]. rewrite Hr2, Ht2, (resolve_app _ _ _ _ Hr1). reflexivity.
Qed.

Lemma lookup_all_spec (ss : list string) :
  forall tbl hs, lookup_all ss tbl = Some hs -> map (resolve tbl) hs = map Some ss.
Proof.
  induction ss as [|s ss IH]; intros tbl hs H; cbn in H.
  - injection H as <-. reflexivity.
  - destruct (index_of s tbl) as [h|] eqn:Hh; [|discriminate].
    destruct (lookup_all ss tbl) as [hs'|] eqn:Hhs; [|discriminate].
    injection H as <-. cbn. rewrite (index_of_resolve _ _ _ Hh), (IH _ _ Hhs). reflexivity.
Qed.

Lemma DynKey_eqb_true (k1 k2 : DynKey) : DynKey_eqb k1 k2 = true -> k1 = k2.
Proof.
  destruct k1 as [a hs1], k2 as [b hs2]. unfold DynKey_eqb. cbn [fst snd].
  intros H. apply andb_true_iff in H as [Hab H].
  apply Nat.eqb_eq in Hab. destruct (list_eq_dec Nat.eq_dec hs1 hs2); [|discriminate].
  subst. reflexivity.
Qed.

Lemma dyn_find_In {A} (k : DynKey) :
  forall (es : list (DynKey * A)) a, dyn_find k es = Some a -> In k (map fst es).
Proof.
  induction es as [|[k' a'] es IH]; intros a H; cbn in H; [discriminate|].
  destruct (DynKey_eqb k k') eqn:Hk.
  - left. symmetry. apply DynKey_eqb_true. exact Hk.
  - right. eapply IH. exact H.
Qed.

Lemma dyn_upsert_keys {A} (k : DynKey) (init : A) (f : A -> A) :
  forall es k', In k' (map fst (dyn_upsert k init f es)) -> k' = k \/ In k' (map fst es).
Proof.
  induction es as [|[k0 a] es IH]; intros k' H; cbn in H.
  - destruct H as [<-|[]]. left. reflexivity.
  - destruct (DynKey_eqb k k0); cbn in H.
    + right. exact H.
    + destruct H as [<-|H]; [right; left; reflexivity|].
      destruct (IH k' H) as [->|H']; [left; reflexivity | right; right; exact H'].
Qed.

(** Every allocated key of a counter that only [g] was added to has the
    fixed index of [g] and handles resolving to the strings of [g]. *)
Definition keys_of (cards : list nat) (g : DynGroup) (c : DynCounter) : Prop :=
  forall k, In k (map fst (dyn_entries c)) ->
    fst k = group_index cards (fixed_codes g) /\
    map (resolve (interner c)) (snd k) = map Some (dyn_values g).

Lemma dyn_counter_inc_keys (cards : list nat) (g : DynGroup) (c : DynCounter) :
  keys_of cards g c -> keys_of cards g (dyn_counter_inc cards g c).
Proof.
  intros Hc. unfold dyn_counter_inc, dyn_key.
  destruct (intern_all_spec (dyn_values g) (interner c)) as (suf & Ht & Hr).
  destruct (intern_all (dyn_values g) (interner c)) as [hs tbl]. cbn [fst snd] in *.
  intros k Hk. cbn [dyn_entries interner] in *.
  apply dyn_upsert_keys in Hk as [->|Hk].
  - split; [reflexivity | exact Hr].
  - destruct (Hc k Hk) as [Hf Hs]. split; [exact Hf|].
    rewrite Ht. apply resolve_all_app. exact Hs.
Qed.

Lemma map_Some_inj {A} : forall (l1 l2 : list A), map Some l1 = map Some l2 -> l1 = l2.
Proof.
  induction l1 as [|a l1 IH]; intros [|b l2] H; cbn in H; try discriminate; [reflexivity|].
  injection H as -> H. f_equal. apply IH. exact H.
Qed.

Lemma dyn_counter_get_other (cards : list nat) (g1 g2 : DynGroup) (c : DynCounter) :
  fits cards (fixed_codes g1) = true -> fits cards (fixed_codes g2) = true -> g1 <> g2 ->
  keys_of cards g1 c -> dyn_counter_get cards g2 c = None.
Proof.
  intros H1 H2 Hne Hc. unfold dyn_counter_get.
  destruct (lookup_all (dyn_values g2) (interner c)) as [hs|] eqn:Hl; [|reflexivity].
  destruct (dyn_find (group_index cards (fixed_codes g2), hs) (dyn_entries c)) as [a|] eqn:Hf;
    [|reflexivity].
  exfalso. apply Hne.
  destruct (Hc _ (dyn_find_In _ _ _ Hf)) as [Hi Hs]. cbn [fst snd] in Hi, Hs.
  apply lookup_all_spec in Hl. rewrite Hl in Hs.
  apply group_index_inj in Hi; [|exact H2 | exact H1].
  apply map_Some_inj in Hs.
  destruct g1 as [f1 d1], g2 as [f2 d2]. cbn in *. subst. reflexivity.
Qed.
End Dyn_groups.

(** C6: incrementing one label group never changes another.  For any
    schema of fixed dimensions and any two distinct label group values that
    fit it (e.g. two distinct [(kind, route)] pairs of the benchmark's
    [3 x 6] label space), [N] increments of the first leave the accumulator
    of the second at 0 in a dense vector and unallocated in a sparse one.
    With dynamic dimensions as well (e.g. [user_name] of the
    high-cardinality benchmark, interned in a [ThreadedRodeo]): whatever the
    interner held before, [N] increments of one label group on a fresh
    vector leave any other label group unallocated. *)
Theorem C6_inc_frame :
  (forall (cards v1 v2 : list nat) (N : nat),
     measured.fits cards v1 = true -> measured.fits cards v2 = true -> v1 <> v2 ->
     let j := measured.group_index cards v1 in
     let k := measured.group_index cards v2 in
     measured.storage_get k
       (Nat.iter N (measured.counter_inc j) (measured.counter_new (measured.group_cardinality cards)))
     = Some 0 /\
     measured.storage_get k (Nat.iter N (measured.counter_inc j) measured.counter_new_sparse) = None)
  /\
  (forall (cards : list nat) (tbl : measured.Interner) (g1 g2 : measured.DynGroup) (N : nat),
     measured.fits cards (measured.fixed_codes g1) = true ->
     measured.fits cards (measured.fixed_codes g2) = true -> g1 <> g2 ->
     measured.dyn_counter_get cards g2
       (Nat.iter N (measured.dyn_counter_inc cards g1) (measured.mkDynCounter tbl []))
     = None).
Proof.
  split.
  - intros cards v1 v2 N H1 H2 Hne. cbv zeta.
    assert (Hkj : measured.group_index cards v2 <> measured.group_index cards v1).
    { intros Heq. apply Hne. symmetry. apply (group_index_inj cards); assumption. }
    rewrite !iter_inc_other by exact Hkj. split; [|reflexivity].
    cbn. apply nth_error_repeat. apply group_index_lt. exact H2.
  - intros cards tbl g1 g2 N H1 H2 Hne.
    apply (dyn_counter_get_other cards g1 g2); [exact H1 | exact H2 | exact Hne |].
    induction N as [|N IH].
    + intros k [].
    + apply dyn_counter_inc_keys. exact IH.
Qed.

(** Witness of C6: in the fixed-cardinality benchmark, [(User,
    "/api/v1/users/:id")] incremented [LOOPS] times leaves
    [(Network, "/api/v1/products/:id/purchase")] at 0; in the
    high-cardinality benchmark, [LOOPS] increments of [(User,
    "/api/v1/users/:id", "Alice")] leave [(User, "/api/v1/users/:id",
    "Bob")] unallocated, though "Bob" was interned before. *)
Lemma C6_witness :
  fixed_cardinality.ErrorsSet_codes fixed_cardinality.error_set
    (fixed_cardinality.mkError fixed_cardinality.User "/api/v1/users/:id") = Some [0; 1] /\
  fixed_cardinality.ErrorsSet_codes fixed_cardinality.error_set
    (fixed_cardinality.mkError fixed_cardinality.Network "/api/v1/products/:id/purchase")
    = Some [2; 5] /\
  measured.storage_get
    (measured.group_index (fixed_cardinality.ErrorsSet_cards fixed_cardinality.error_set) [2; 5])
    (Nat.iter fixed_cardinality.LOOPS
       (measured.counter_inc
          (measured.group_index (fixed_cardinality.ErrorsSet_cards fixed_cardinality.error_set) [0; 1]))
       (measured.counter_new
          (measured.group_cardinality (fixed_cardinality.ErrorsSet_cards fixed_cardinality.error_set))))
  = Some 0 /\
  high_cardinality.Error_group
    (high_cardinality.mkError high_cardinality.User "/api/v1/users/:id" "Alice")
    = Some (measured.mkDynGroup [0; 1] ["Alice"%string]) /\
  high_cardinality.Error_group
    (high_cardinality.mkError high_cardinality.User "/api/v1/users/:id" "Bob")
    = Some (measured.mkDynGroup [0; 1] ["Bob"%string]) /\
  measured.dyn_counter_get high_cardinality.ErrorsSet_cards
    (measured.mkDynGroup [0; 1] ["Bob"%string])
    (Nat.iter high_cardinality.LOOPS
       (measured.dyn_counter_inc high_cardinality.ErrorsSet_cards
          (measured.mkDynGroup [0; 1] ["Alice"%string]))
       (measured.mkDynCounter ["Bob"%string] []))
  = None.
Proof.
  split; [reflexivity|]. split; [reflexivity|]. split.
  { apply (proj1 C6_inc_frame (fixed_cardinality.ErrorsSet_cards fixed_cardinality.error_set)
             [0; 1] [2; 5] fixed_cardinality.LOOPS); [reflexivity | reflexivity | discriminate]. }
  split; [reflexivity|]. split; [reflexivity|].
  apply (proj2 C6_inc_frame high_cardinality.ErrorsSet_cards ["Bob"%string]
           (measured.mkDynGroup [0; 1] ["Alice"%string]) (measured.mkDynGroup [0; 1] ["Bob"%string])
           high_cardinality.LOOPS); [reflexivity | reflexivity | discriminate].
Defined.

Lemma rodeo_get_nth (r : metrics.RodeoReader) :
  forall s k, metrics.rodeo_get r s = Some k -> nth_error r k = Some s.
Proof.
  induction r as [|s' r IH]; intros s k H; cbn in H; [discriminate|].
  destruct (String.eqb s s') eqn:Hs.
  - apply String.eqb_eq in Hs. subst. injection H as <-. reflexivity.
  - destruct (metrics.rodeo_get r s) as [k'|] eqn:Hk; cbn in H; [|discriminate].
    injection H as <-. cbn. apply IH. exact Hk.
Qed.

Section Middleware_effect.
Import measured.

Lemma rodeo_get_In (r : metrics.RodeoReader) :
  forall s, In s r -> exists k, metrics.rodeo_get r s = Some k /\ k < List.length r.
Proof.
  induction r as [|s' r IH]; intros s Hin; [destruct Hin|]. cbn.
  destruct (String.eqb s s') eqn:Hs.
  - exists 0. split; [reflexivity | cbn; lia].
  - destruct Hin as [->|Hin]; [rewrite String.eqb_refl in Hs; discriminate|].
    destruct (IH s Hin) as (k & -> & Hk). exists (S k). split; [reflexivity | cbn; lia].
Qed.

Lemma Method_code (m : metrics.Method) :
  exists c, encode m = Some c /\ c < 3 /\ nth_error metrics.Method_variants c = Some m.
Proof. destruct m; eexists; (split; [reflexivity | split; [cbn; lia | reflexivity]]). Qed.

Lemma counter_val_inc_sparse (es : list (nat * nat)) (i j : nat) :
  views.counter_val j (counter_inc i (Sparse es))
  = views.counter_val j (Sparse es) + (if j =? i then 1 else 0).
Proof.
  unfold views.counter_val, counter_inc. cbn [storage_update storage_get].
  rewrite assoc_upsert_find. destruct (j =? i); [|lia].
  destruct (assoc_find j es); lia.
Qed.

Lemma hist_count_observe_sparse (le : list float) (es : list (nat * HistogramState))
    (i j : nat) (x : float) :
  views.hist_count j (histogram_vec_observe le i x (Sparse es))
  = views.hist_count j (Sparse es) + (if j =? i then 1 else 0).
Proof.
  unfold views.hist_count, histogram_vec_observe. cbn [storage_update storage_get].
  rewrite assoc_upsert_find. destruct (j =? i); [|lia].
  destruct (assoc_find j es); cbn; lia.
Qed.

Lemma is_sparse_inv {A} (st : Storage A) :
  views.is_sparse st = true -> exists es, st = Sparse es.
Proof. destruct st as [xs|es]; [discriminate|]. intros _. exists es. reflexivity. Qed.

Lemma HttpRequestsSet_labels_index (paths : metrics.RodeoReader) (pk mc : nat) :
  pk < List.length paths -> mc < 3 ->
  metrics.HttpRequestsSet_labels paths (pk + List.length paths * mc)
  = [("path"%string, LStr (metrics.rodeo_resolve paths pk));
     ("method"%string, LStr (match nth_error metrics.Method_variants mc with
                             | Some x => metrics.Method_name x
                             | None => ""%string end))].
Proof.
  intros Hp Hm. unfold metrics.HttpRequestsSet_labels.
  rewrite (Nat.mul_comm (List.length paths) mc), Nat.Div0.mod_add, Nat.mod_small by exact Hp.
  rewrite Nat.div_add by lia. rewrite Nat.div_small by exact Hp.
  rewrite Nat.mod_small by exact Hm. reflexivity.
Qed.

Lemma HttpResponsesSet_labels_index (paths : metrics.RodeoReader) (pk mc sc : nat) :
  pk < List.length paths -> mc < 3 ->
  metrics.HttpResponsesSet_labels paths (pk + List.length paths * (mc + 3 * sc))
  = metrics.HttpRequestsSet_labels paths (pk + List.length paths * mc)
    ++ [("status"%string, LInt (sc + 100))].
Proof.
  intros Hp Hm. unfold metrics.HttpResponsesSet_labels.
  assert (Hlt : pk + List.length paths * mc < List.length paths * 3).
  { assert (List.length paths * mc <= List.length paths * 2)
      by (apply Nat.mul_le_mono_l; lia). lia. }
  replace (pk + List.length paths * (mc + 3 * sc))
    with ((pk + List.length paths * mc) + sc * (List.length paths * 3)) by nia.
  rewrite Nat.Div0.mod_add, Nat.mod_small by exact Hlt.
  rewrite Nat.div_add by lia. rewrite Nat.div_small by exact Hlt. reflexivity.
Qed.

Lemma middleware_label_indices (paths : metrics.RodeoReader) (p : string)
    (m : metrics.Method) (st : axum_http.StatusCode) :
  In p paths -> 100 <= axum_http.as_u16 st ->
  exists iq ir,
    metrics.HttpRequestsSet_encode paths (metrics.mkHttpRequests p m) = Some iq /\
    metrics.HttpResponsesSet_encode paths
      (metrics.mkHttpResponses p m (metrics.mkStatusCode st)) = Some ir /\
    metrics.HttpRequestsSet_labels paths iq
      = [("path"%string, LStr p); ("method"%string, LStr (metrics.Method_name m))] /\
    metrics.HttpResponsesSet_labels paths ir
      = metrics.HttpRequestsSet_labels paths iq
        ++ [("status"%string, LInt (axum_http.as_u16 st))].
Proof.
  intros Hin Hst.
  destruct (rodeo_get_In paths p Hin) as (pk & Hpk & Hpk_lt).
  destruct (Method_code m) as (mc & Hmc & Hmc_lt & Hmc_dec).
  exists (pk + List.length paths * mc), (pk + List.length paths * (mc + 3 * (axum_http.as_u16 st - 100))).
  split; [|split; [|split]].
  - unfold metrics.HttpRequestsSet_encode. cbn [metrics.rq_path metrics.rq_method].
    rewrite Hpk, Hmc. cbn [group_index]. f_equal. lia.
  - unfold metrics.HttpResponsesSet_encode.
    cbn [metrics.rs_path metrics.rs_method metrics.rs_status encode metrics.StatusCode_label].
    rewrite Hpk, Hmc. unfold metrics.StatusCode_encode. cbn [metrics.status0].
    destruct (axum_http.as_u16 st <? 100) eqn:Hn; [apply Nat.ltb_lt in Hn; lia|].
    cbn [group_index]. f_equal. lia.
  - rewrite HttpRequestsSet_labels_index by assumption.
    rewrite Hmc_dec. unfold metrics.rodeo_resolve.
    rewrite (nth_error_nth _ _ _ (rodeo_get_nth _ _ _ Hpk)). reflexivity.
  - rewrite HttpResponsesSet_labels_index by assumption.
    rewrite Nat.sub_add by lia. reflexivity.
Qed.

Lemma rodeo_get_some_In (r : metrics.RodeoReader) (s : string) (k : nat) :
  metrics.rodeo_get r s = Some k -> In s r.
Proof. intros H. eapply nth_error_In. apply rodeo_get_nth. exact H. Qed.

Lemma HttpRequestsSet_encode_labels (paths : metrics.RodeoReader) (l : metrics.HttpRequests) (i : nat) :
  metrics.HttpRequestsSet_encode paths l = Some i ->
  metrics.HttpRequestsSet_labels paths i
  = [("path"%string, LStr (metrics.rq_path l));
     ("method"%string, LStr (metrics.Method_name (metrics.rq_method l)))].
Proof.
  intros H. destruct l as [p m]. pose proof H as H'.
  unfold metrics.HttpRequestsSet_encode in H'. cbn [metrics.rq_path metrics.rq_method] in H'.
  destruct (metrics.rodeo_get paths p) as [k|] eqn:Hk; [|discriminate].
  destruct (middleware_label_indices paths p m (axum_http.mkStatusCode 200)
              (rodeo_get_some_In _ _ _ Hk) ltac:(cbn; lia)) as (iq & _ & Hq & _ & Hl & _).
  rewrite Hq in H. injection H as <-. exact Hl.
Qed.

Lemma HttpResponsesSet_encode_labels (paths : metrics.RodeoReader) (l : metrics.HttpResponses) (i : nat) :
  metrics.HttpResponsesSet_encode paths l = Some i ->
  metrics.HttpResponsesSet_labels paths i
  = [("path"%string, LStr (metrics.rs_path l));
     ("method"%string, LStr (metrics.Method_name (metrics.rs_method l)));
     ("status"%string, LInt (axum_http.as_u16 (metrics.status0 (metrics.rs_status l))))].
Proof.
  intros H. destruct l as [p m [st]]. pose proof H as H'.
  unfold metrics.HttpResponsesSet_encode in H'.
  cbn [metrics.rs_path metrics.rs_method metrics.rs_status encode metrics.StatusCode_label] in H'.
  unfold metrics.StatusCode_encode in H'. cbn [metrics.status0] in H'.
  destruct (metrics.rodeo_get paths p) as [k|] eqn:Hk; [|discriminate].
  destruct (axum_http.as_u16 st <? 100) eqn:Hn; [destruct (encode m); discriminate|].
  apply Nat.ltb_ge in Hn.
  destruct (middleware_label_indices paths p m st (rodeo_get_some_In _ _ _ Hk) Hn)
    as (iq & ir & _ & Hr & Hlq & Hlr).
  rewrite Hr in H. injection H as <-. rewrite Hlr, Hlq. reflexivity.
Qed.

Lemma Method_name_inj (m1 m2 : metrics.Method) :
  metrics.Method_name m1 = metrics.Method_name m2 -> m1 = m2.
Proof. destruct m1, m2; cbn; first [reflexivity | discriminate]. Qed.
End Middleware_effect.

(** C7 (amended): on every request that carries its matched route path
    (the [MatchedPath] extension), with that path held by the [RodeoReader]
    of the label sets and a response status of axum's range ([>= 100]),
    [middleware] calls [http_requests.inc] once, then the downstream
    handler, then [http_request_duration.observe] once and
    [http_responses.inc] once, all with the matched path and the method
    converted by [Method::from]. *)
Theorem C7_middleware_calls (paths : metrics.RodeoReader) (request : metrics.Request)
    (next : metrics.Request -> metrics.Response) (elapsed : float) (path : string)
    (Hpath : metrics.req_matched_path request = Some path)
    (Hin : In path paths)
    (Hst : 100 <= axum_http.as_u16 (metrics.resp_status (next request))) :
  let method := metrics.Method_from (metrics.req_method request) in
  let response := next request in
  metrics.middleware paths request next elapsed =
    Some ([metrics.IncHttpRequests (metrics.mkHttpRequests path method);
           metrics.RunNext;
           metrics.ObserveHttpRequestDuration (metrics.mkHttpRequests path method) elapsed;
           metrics.IncHttpResponses
             (metrics.mkHttpResponses path method
                (metrics.mkStatusCode (metrics.resp_status response)))],
          response).
Proof.
  cbv zeta.
  destruct (middleware_label_indices paths path
              (metrics.Method_from (metrics.req_method request))
              (metrics.resp_status (next request)) Hin Hst) as (iq & ir & Hq & Hr & _).
  unfold metrics.middleware. rewrite Hpath. cbv beta iota zeta.
  rewrite Hq. cbv beta iota zeta. rewrite Hr. reflexivity.
Qed.

(** Witness of C7: a [GET] request on a matched route held by the reader. *)
Lemma C7_witness :
  metrics.middleware ["/users"%string] (metrics.mkRequest axum_http.GET (Some "/users"%string))
    (fun _ => metrics.Response_new []) 0.25
  = Some ([metrics.IncHttpRequests (metrics.mkHttpRequests "/users" metrics.Get);
           metrics.RunNext;
           metrics.ObserveHttpRequestDuration (metrics.mkHttpRequests "/users" metrics.Get) 0.25;
           metrics.IncHttpResponses
             (metrics.mkHttpResponses "/users" metrics.Get
                (metrics.mkStatusCode (axum_http.mkStatusCode 200)))],
          metrics.Response_new []).
Proof.
  apply (C7_middleware_calls ["/users"%string]
           (metrics.mkRequest axum_http.GET (Some "/users"%string))
           (fun _ => metrics.Response_new []) 0.25 "/users"%string).
  - reflexivity.
  - left. reflexivity.
  - cbn. lia.
Defined.

(** C7 counterexample: two requests that pass through [middleware] without
    any metric call and without the downstream handler running: one without
    [MatchedPath] (the [unwrap] panics), and one whose matched path is not
    held by the [RodeoReader] ([http_requests.inc] panics before [next]);
    the handler here would answer with status 200. *)
Lemma C7_middleware_panics_before_handler :
  metrics.middleware ["/users"%string] (metrics.mkRequest axum_http.GET None)
    (fun _ => metrics.Response_new []) 0.25 = None /\
  metrics.middleware ["/users"%string] (metrics.mkRequest axum_http.GET (Some "/orders"%string))
    (fun _ => metrics.Response_new []) 0.25 = None.
Proof. split; reflexivity. Qed.

(** C8 (amended): [handler] returns [Response::new] of the text that
    [finish] yields after [collect_into] of [http_requests_total],
    [http_responses_total] and [http_request_duration_seconds], in that
    order: status 200, that body, and no header, so no content type. *)
Theorem C8_handler_response (s : metrics.AppMetrics) :
  fst (metrics.handler s) =
    metrics.mkResponse (axum_http.mkStatusCode 200) []
      (measured.buf (metrics.encoder s)
       ++ measured.counter_lines "http_requests_total" (metrics.http_requests s)
       ++ measured.counter_lines "http_responses_total" (metrics.http_responses s)
       ++ measured.histogram_lines "http_request_duration_seconds"
            (metrics.http_request_duration_le s) (metrics.http_request_duration s)) /\
  measured.buf (metrics.encoder (snd (metrics.handler s))) = [].
Proof.
  split; [|reflexivity].
  unfold metrics.handler, measured.counter_collect_into, measured.histogram_collect_into,
    measured.write_lines, measured.finish. cbn.
  rewrite !app_assoc. reflexivity.
Qed.

(** C8 counterexample: the response of [handler] carries no
    [content-type] header. *)
Lemma C8_no_content_type :
  ~ (exists v, In ("content-type"%string, v)
                 (metrics.resp_headers (fst (metrics.handler (metrics.AppMetrics_new []))))).
Proof. cbn. intros (v & []). Qed.

(* ------------------------------------------------------------------ *)
(** * Further properties of the sources *)

Lemma StatusCode_decode_out_of_range (c : nat) :
  900 <= c -> metrics.StatusCode_decode c = None.
Proof.
  intros Hc. pose proof u16_MAX_ge_1000.
  unfold metrics.StatusCode_decode, axum_http.StatusCode_from_u16.
  destruct (axum_http.u16_MAX <? c); [reflexivity|].
  destruct (axum_http.u16_MAX <? c + 100); [reflexivity|].
  replace (c + 100 <? 1000) with false by (symmetry; apply Nat.ltb_ge; lia).
  rewrite andb_false_r. reflexivity.
Qed.

(** X1: [StatusCode::decode] panics exactly on the codes [>= 900]: below
    900 it returns the status [c + 100]; from 900 on one of the [unwrap]s
    ([u16::try_from], the [u16] addition or [StatusCode::from_u16]) fails. *)
Theorem X1_StatusCode_decode_domain (c : nat) :
  (c < 900 -> metrics.StatusCode_decode c
              = Some (metrics.mkStatusCode (axum_http.mkStatusCode (c + 100)))) /\
  (metrics.StatusCode_decode c = None <-> 900 <= c).
Proof.
  split; [apply StatusCode_decode_in_range|].
  split.
  - intros H. destruct (Nat.lt_ge_cases c 900) as [Hlt|Hge]; [|exact Hge].
    rewrite StatusCode_decode_in_range in H by exact Hlt. discriminate.
  - apply StatusCode_decode_out_of_range.
Qed.

(** X2: the label value [StatusCode] writes on export ([write_int] of the
    [u16]) is its code plus 100: whenever [encode(s)] returns [c], [visit]
    writes [c + 100], and the status decoded from a code [c < 900] writes
    [c + 100].  Exported status labels are thus the HTTP status codes. *)
Theorem X2_StatusCode_visit_code :
  (forall s c, metrics.StatusCode_encode s = Some c ->
     metrics.StatusCode_visit s = measured.LInt (c + 100)) /\
  (forall c, c < 900 ->
     option_map metrics.StatusCode_visit (metrics.StatusCode_decode c)
     = Some (measured.LInt (c + 100))).
Proof.
  split.
  - intros [[n]] c. unfold metrics.StatusCode_encode, metrics.StatusCode_visit.
    cbn [metrics.status0 axum_http.as_u16].
    destruct (n <? 100) eqn:Hn; [discriminate|].
    apply Nat.ltb_ge in Hn. intros H. injection H as <-. f_equal. lia.
  - intros c Hc. rewrite StatusCode_decode_in_range by exact Hc. reflexivity.
Qed.

Lemma ErrorsSet_encode_in_routes (e : fixed_cardinality.Error) (i : nat) :
  fixed_cardinality.ErrorsSet_encode fixed_cardinality.error_set e = Some i ->
  In (fixed_cardinality.route e) fixed_cardinality.routes.
Proof.
  unfold fixed_cardinality.ErrorsSet_encode, fixed_cardinality.ErrorsSet_codes.
  destruct (measured.encode (fixed_cardinality.kind e)); [|discriminate].
  destruct (metrics.rodeo_get (fixed_cardinality.route_set fixed_cardinality.error_set)
              (fixed_cardinality.route e)) as [r|] eqn:Hr; [|discriminate].
  intros _. apply rodeo_get_nth in Hr. eapply nth_error_In. exact Hr.
Qed.

Ltac destruct_route H :=
  cbn in H; destruct H as [<-|[<-|[<-|[<-|[<-|[<-|[]]]]]]].

(** X3: the label set of the fixed-cardinality benchmark ([ErrorsSet] with
    the [RodeoReader] of [routes()]) encodes exactly the [3 x 6] label
    values: an [Error] is encoded iff its route is one of [routes()]; the
    encoding is one-to-one onto [0, 18), the size of the dense vector; and
    the labels exported for the index of [Error { kind, route }] are that
    kind's label value and that route. *)
Theorem X3_ErrorsSet_codec :
  measured.group_cardinality (fixed_cardinality.ErrorsSet_cards fixed_cardinality.error_set) = 18 /\
  (forall e, fixed_cardinality.ErrorsSet_encode fixed_cardinality.error_set e = None <->
             ~ In (fixed_cardinality.route e) fixed_cardinality.routes) /\
  (forall e, In (fixed_cardinality.route e) fixed_cardinality.routes ->
     exists i, fixed_cardinality.ErrorsSet_encode fixed_cardinality.error_set e = Some i /\
       i < 18 /\
       fixed_cardinality.ErrorsSet_labels fixed_cardinality.error_set i =
         [("kind"%string, measured.LStr (fixed_cardinality.ErrorKind_label_value
                                          (fixed_cardinality.kind e)));
          ("route"%string, measured.LStr (fixed_cardinality.route e))]) /\
  (forall e1 e2 i,
     fixed_cardinality.ErrorsSet_encode fixed_cardinality.error_set e1 = Some i ->
     fixed_cardinality.ErrorsSet_encode fixed_cardinality.error_set e2 = Some i -> e1 = e2) /\
  (forall i, i < 18 ->
     exists e, fixed_cardinality.ErrorsSet_encode fixed_cardinality.error_set e = Some i).
Proof.
  assert (Hall : forall e, In (fixed_cardinality.route e) fixed_cardinality.routes ->
     exists i, fixed_cardinality.ErrorsSet_encode fixed_cardinality.error_set e = Some i /\
       i < 18 /\
       fixed_cardinality.ErrorsSet_labels fixed_cardinality.error_set i =
         [("kind"%string, measured.LStr (fixed_cardinality.ErrorKind_label_value
                                          (fixed_cardinality.kind e)));
          ("route"%string, measured.LStr (fixed_cardinality.route e))]).
  { intros [k r] Hin. cbn [fixed_cardinality.route fixed_cardinality.kind] in *.
    destruct_route Hin; destruct k;
      (eexists; split; [reflexivity | split; [vm_compute; lia | reflexivity]]). }
  split; [reflexivity|].
  split.
  { intros e. split.
    - intros Hnone Hin. destruct (Hall e Hin) as (i & Hi & _). congruence.
    - intros Hnin. destruct (fixed_cardinality.ErrorsSet_encode fixed_cardinality.error_set e)
        as [i|] eqn:He; [|reflexivity].
      exfalso. apply Hnin. eapply ErrorsSet_encode_in_routes. exact He. }
  split; [exact Hall|].
  split.
  { intros [k1 r1] [k2 r2] i H1 H2.
    pose proof (ErrorsSet_encode_in_routes _ _ H1) as Hin1.
    pose proof (ErrorsSet_encode_in_routes _ _ H2) as Hin2.
    cbn [fixed_cardinality.route] in Hin1, Hin2.
    destruct_route Hin1; destruct_route Hin2; destruct k1, k2;
      cbn in H1, H2; congruence. }
  intros i Hi.
  exists (fixed_cardinality.mkError (nth (i mod 3) fixed_cardinality.ErrorKind_variants
                                       fixed_cardinality.User)
                                    (nth (i / 3) fixed_cardinality.routes ""%string)).
  do 18 (destruct i as [|i]; [reflexivity|]). lia.
Qed.

Section Fixed_bench.
Import fixed_cardinality.

Lemma dense_pass (xs : list nat) :
  List.length xs = 18 -> loop_errors error_set errors (measured.Dense xs) = measured.Dense (map S xs).
Proof.
  intros Hl.
  do 18 (destruct xs as [|? xs]; [discriminate|]).
  destruct xs; [reflexivity | discriminate].
Qed.

Lemma sparse_pass_first :
  loop_errors error_set errors (measured.Sparse [])
  = measured.Sparse (combine views.loop_indices (repeat 1 18)).
Proof. reflexivity. Qed.

Lemma sparse_pass (vs : list nat) :
  List.length vs = 18 ->
  loop_errors error_set errors (measured.Sparse (combine views.loop_indices vs))
  = measured.Sparse (combine views.loop_indices (map S vs)).
Proof.
  intros Hl.
  do 18 (destruct vs as [|? vs]; [discriminate|]).
  destruct vs; [reflexivity | discriminate].
Qed.

Lemma map_add_0 (xs : list nat) : map (Nat.add 0) xs = xs.
Proof. induction xs as [|x xs IH]; [reflexivity|]. cbn [map]. rewrite IH. reflexivity. Qed.

Lemma dense_loops (n : nat) :
  forall xs, List.length xs = 18 ->
  loop_loops error_set n (measured.Dense xs) = measured.Dense (map (Nat.add n) xs).
Proof.
  induction n as [|n IH]; intros xs Hl; cbn [loop_loops].
  - rewrite map_add_0. reflexivity.
  - rewrite dense_pass by exact Hl. rewrite IH by (rewrite length_map; exact Hl).
    rewrite map_map. f_equal. apply map_ext. intros a. lia.
Qed.

Lemma sparse_loops (n : nat) :
  forall vs, List.length vs = 18 ->
  loop_loops error_set n (measured.Sparse (combine views.loop_indices vs))
  = measured.Sparse (combine views.loop_indices (map (Nat.add n) vs)).
Proof.
  induction n as [|n IH]; intros vs Hl; cbn [loop_loops].
  - rewrite map_add_0. reflexivity.
  - rewrite sparse_pass by exact Hl. rewrite IH by (rewrite length_map; exact Hl).
    rewrite map_map. do 2 f_equal. apply map_ext. intros a. lia.
Qed.

Lemma map_add_repeat (a c n : nat) : map (Nat.add a) (repeat c n) = repeat (a + c) n.
Proof. induction n as [|n IH]; cbn; [reflexivity|]. rewrite IH. reflexivity. Qed.

Lemma measured_body_storage (st : measured.Storage nat) (e : measured.TextEncoder) :
  fst (measured_body st e) = loop_loops error_set LOOPS st.
Proof. reflexivity. Qed.

Lemma loops_sparse_new (m : nat) :
  loop_loops error_set (S m) (measured.Sparse [])
  = measured.Sparse (combine views.loop_indices (repeat (S m) 18)).
Proof.
  cbn [loop_loops]. rewrite sparse_pass_first.
  rewrite sparse_loops by reflexivity. rewrite map_add_repeat, Nat.add_1_r.
  reflexivity.
Qed.

Lemma map_fst_combine_repeat {A} (c : A) (l : list nat) :
  map fst (combine l (repeat c (List.length l))) = l.
Proof. induction l as [|j l IH]; [reflexivity|]. cbn. rewrite IH. reflexivity. Qed.

Lemma map_fst_loop_indices (c : nat) :
  map fst (combine views.loop_indices (repeat c 18)) = views.loop_indices.
Proof. exact (map_fst_combine_repeat c views.loop_indices). Qed.

Lemma loop_indices_perm : Permutation views.loop_indices (seq 0 18).
Proof.
  apply NoDup_Permutation.
  - vm_compute. repeat constructor; cbn; intuition lia.
  - apply seq_NoDup.
  - intros x. rewrite in_seq. vm_compute. intuition lia.
Qed.
End Fixed_bench.

(** X4: one execution of the fixed-cardinality benchmark body on a fresh
    counter vector (no other execution running on it) leaves every one of
    the 18 [(kind, route)] counters at [LOOPS]: the dense vector
    ([CounterVec::new]) is 18 slots of [LOOPS]; the sparse vector
    ([CounterVec::new_sparse]) has allocated exactly the 18 composite
    indices (in some order) and holds the same counts. *)
Theorem X4_fixed_bench_counts (e : measured.TextEncoder) :
  let dense := fst (fixed_cardinality.measured_body
                      (measured.counter_new (measured.group_cardinality
                         (fixed_cardinality.ErrorsSet_cards fixed_cardinality.error_set))) e) in
  let sparse := fst (fixed_cardinality.measured_body measured.counter_new_sparse e) in
  dense = measured.Dense (repeat fixed_cardinality.LOOPS 18) /\
  Permutation (map fst (measured.storage_entries sparse)) (seq 0 18) /\
  (forall err, In (fixed_cardinality.route err) fixed_cardinality.routes ->
     exists i, fixed_cardinality.ErrorsSet_encode fixed_cardinality.error_set err = Some i /\
       measured.storage_get i dense = Some fixed_cardinality.LOOPS /\
       measured.storage_get i sparse = Some fixed_cardinality.LOOPS).
Proof.
  intros dense sparse.
  assert (Hd : dense = measured.Dense (repeat fixed_cardinality.LOOPS 18)).
  { subst dense. rewrite measured_body_storage.
    change (measured.counter_new (measured.group_cardinality
              (fixed_cardinality.ErrorsSet_cards fixed_cardinality.error_set)))
      with (measured.Dense (repeat 0 18)).
    rewrite dense_loops by (rewrite repeat_length; reflexivity).
    rewrite map_add_repeat, Nat.add_0_r. reflexivity. }
  assert (Hs : sparse = measured.Sparse (combine views.loop_indices
                                           (repeat fixed_cardinality.LOOPS 18))).
  { subst sparse. rewrite measured_body_storage. unfold measured.counter_new_sparse.
    change (fixed_cardinality.loop_loops fixed_cardinality.error_set fixed_cardinality.LOOPS
              (measured.Sparse []))
      with (fixed_cardinality.loop_loops fixed_cardinality.error_set (S 1999) (measured.Sparse [])).
    rewrite loops_sparse_new. reflexivity. }
  rewrite Hd, Hs. split; [reflexivity|]. split.
  - cbn [measured.storage_entries]. rewrite map_fst_loop_indices. apply loop_indices_perm.
  - generalize fixed_cardinality.LOOPS as c. intros c [kd r] Hin.
    cbn [fixed_cardinality.route] in Hin.
    destruct_route Hin; destruct kd; eexists; (split; [reflexivity | split; reflexivity]).
Qed.

(** X6: the high-cardinality benchmark body panics (an exhausted
    [names.next().unwrap()]) exactly when it is given fewer than
    [LOOPS * |errors()| * |routes()| = 18000] names. *)
Theorem X6_high_bench_panics_iff_short (names : list string) :
  high_cardinality.measured_body names = None <-> List.length names < 18000.
Proof.
  unfold high_cardinality.measured_body. rewrite hc_loop_loops_none. reflexivity.
Qed.

(** X7: given at least 18000 names, the high-cardinality benchmark body
    succeeds and leaves the names after the first 18000 in the iterator;
    its [inc] calls take the user names in the order of the iterator, and
    their [(kind, route)] pairs run through [errors() x routes()] (route
    fastest) [LOOPS] times. *)
Theorem X7_high_bench_increments (names : list string) :
  18000 <= List.length names ->
  exists incs,
    high_cardinality.measured_body names = Some (incs, skipn 18000 names) /\
    map high_cardinality.user_name incs = firstn 18000 names /\
    map (fun e => (high_cardinality.kind e, high_cardinality.route e)) incs
    = List.concat (repeat (flat_map (fun k => map (pair k) high_cardinality.routes)
                        high_cardinality.errors) high_cardinality.LOOPS).
Proof.
  intros Hlen. unfold high_cardinality.measured_body.
  destruct (high_cardinality.loop_loops high_cardinality.LOOPS names) as [[incs rest]|] eqn:E.
  - destruct (hc_loop_loops_spec _ _ _ _ E) as (A & B & C).
    exists incs. rewrite C, A, B. split; [|split]; reflexivity.
  - apply hc_loop_loops_none in E.
    assert (Hc : high_cardinality.LOOPS * (List.length high_cardinality.errors
                   * List.length high_cardinality.routes) = 18000) by reflexivity.
    rewrite Hc in E. lia.
Qed.

Lemma X7_witness :
  18000 <= List.length (repeat "a"%string 18000) /\
  exists incs,
    high_cardinality.measured_body (repeat "a"%string 18000)
      = Some (incs, skipn 18000 (repeat "a"%string 18000)) /\
    map high_cardinality.user_name incs = firstn 18000 (repeat "a"%string 18000) /\
    map (fun e => (high_cardinality.kind e, high_cardinality.route e)) incs
    = List.concat (repeat (flat_map (fun k => map (pair k) high_cardinality.routes)
                        high_cardinality.errors) high_cardinality.LOOPS).
Proof.
  split; [rewrite repeat_length; apply le_n|].
  apply X7_high_bench_increments. rewrite repeat_length. apply le_n.
Defined.

(** X8: one request through [middleware], followed by the metric
    updates it makes, on the sparse vectors of [AppMetrics] (as
    [AppMetrics::new] creates them).  When the request has a matched path
    that the path reader knows and the downstream response has a valid
    status: the response is passed through unchanged; [http_requests] and
    the observation count of [http_request_duration] gain 1 at the index
    of [(path, method)] and nothing elsewhere; [http_responses] gains 1 at
    the index of [(path, method, status)] and nothing elsewhere; and these
    indices export as the labels [path], [method] (and [status], the HTTP
    status code) of the request. *)
Theorem X8_middleware_effect (paths : metrics.RodeoReader) (s : metrics.AppMetrics)
    (req : metrics.Request) (next : metrics.Request -> metrics.Response) (elapsed : float)
    (p : string) :
  metrics.req_matched_path req = Some p ->
  In p paths ->
  valid_status (metrics.mkStatusCode (metrics.resp_status (next req))) ->
  views.is_sparse (measured.storage (metrics.http_requests s)) = true ->
  views.is_sparse (measured.storage (metrics.http_responses s)) = true ->
  views.is_sparse (measured.storage (metrics.http_request_duration s)) = true ->
  let m := metrics.Method_from (metrics.req_method req) in
  let n := axum_http.as_u16 (metrics.resp_status (next req)) in
  exists cs iq ir,
    metrics.middleware paths req next elapsed = Some (cs, next req) /\
    metrics.HttpRequestsSet_encode paths (metrics.mkHttpRequests p m) = Some iq /\
    metrics.HttpResponsesSet_encode paths
      (metrics.mkHttpResponses p m (metrics.mkStatusCode (metrics.resp_status (next req))))
      = Some ir /\
    metrics.HttpRequestsSet_labels paths iq
      = [("path"%string, measured.LStr p); ("method"%string, measured.LStr (metrics.Method_name m))] /\
    metrics.HttpResponsesSet_labels paths ir
      = metrics.HttpRequestsSet_labels paths iq ++ [("status"%string, measured.LInt n)] /\
    let s' := metrics.apply_calls paths s cs in
    forall j,
      views.counter_val j (measured.storage (metrics.http_requests s'))
        = views.counter_val j (measured.storage (metrics.http_requests s))
          + (if j =? iq then 1 else 0) /\
      views.hist_count j (measured.storage (metrics.http_request_duration s'))
        = views.hist_count j (measured.storage (metrics.http_request_duration s))
          + (if j =? iq then 1 else 0) /\
      views.counter_val j (measured.storage (metrics.http_responses s'))
        = views.counter_val j (measured.storage (metrics.http_responses s))
          + (if j =? ir then 1 else 0).
Proof.
  intros Hpath Hin Hst Hs1 Hs2 Hs3 m n.
  unfold valid_status in Hst. cbn [metrics.status0] in Hst.
  destruct (middleware_label_indices paths p m (metrics.resp_status (next req)) Hin
              (proj1 Hst)) as (iq & ir & Henc_q & Henc_r & Hlab_q & Hlab_r).
  destruct s as [enc [lq stq] [lr str] [ld std] le]; cbn [metrics.http_requests
    metrics.http_responses metrics.http_request_duration measured.storage] in *.
  destruct (is_sparse_inv _ Hs1) as [esq ->].
  destruct (is_sparse_inv _ Hs2) as [esr ->].
  destruct (is_sparse_inv _ Hs3) as [esd ->].
  eexists _, iq, ir.
  split.
  { unfold metrics.middleware. rewrite Hpath. cbv beta iota zeta. fold m.
    rewrite Henc_q. cbv beta iota zeta. rewrite Henc_r. reflexivity. }
  split; [exact Henc_q|]. split; [exact Henc_r|].
  split; [exact Hlab_q|]. split; [exact Hlab_r|].
  cbv zeta. intros j.
  unfold metrics.apply_calls. cbn [fold_left].
  unfold metrics.apply_call. fold m. rewrite Henc_q, Henc_r.
  cbn [metrics.http_requests metrics.http_responses metrics.http_request_duration
       metrics.http_request_duration_le measured.storage measured.labels_of metrics.encoder].
  rewrite !counter_val_inc_sparse, hist_count_observe_sparse.
  split; [|split]; reflexivity.
Qed.

Lemma X8_witness :
  let paths := ["/users"%string] in
  let req := metrics.mkRequest axum_http.GET (Some "/users"%string) in
  let next := fun _ : metrics.Request => metrics.Response_new [] in
  metrics.req_matched_path req = Some "/users"%string /\
  In "/users"%string paths /\
  valid_status (metrics.mkStatusCode (metrics.resp_status (next req))) /\
  views.is_sparse (measured.storage (metrics.http_requests (metrics.AppMetrics_new paths))) = true /\
  views.is_sparse (measured.storage (metrics.http_responses (metrics.AppMetrics_new paths))) = true /\
  views.is_sparse (measured.storage
    (metrics.http_request_duration (metrics.AppMetrics_new paths))) = true /\
  let m := metrics.Method_from (metrics.req_method req) in
  let n := axum_http.as_u16 (metrics.resp_status (next req)) in
  exists cs iq ir,
    metrics.middleware paths req next 0.5%float = Some (cs, next req) /\
    metrics.HttpRequestsSet_encode paths (metrics.mkHttpRequests "/users"%string m) = Some iq /\
    metrics.HttpResponsesSet_encode paths
      (metrics.mkHttpResponses "/users"%string m (metrics.mkStatusCode (metrics.resp_status (next req))))
      = Some ir /\
    metrics.HttpRequestsSet_labels paths iq
      = [("path"%string, measured.LStr "/users"%string);
         ("method"%string, measured.LStr (metrics.Method_name m))] /\
    metrics.HttpResponsesSet_labels paths ir
      = metrics.HttpRequestsSet_labels paths iq ++ [("status"%string, measured.LInt n)] /\
    let s' := metrics.apply_calls paths (metrics.AppMetrics_new paths) cs in
    forall j,
      views.counter_val j (measured.storage (metrics.http_requests s'))
        = views.counter_val j (measured.storage (metrics.http_requests (metrics.AppMetrics_new paths)))
          + (if j =? iq then 1 else 0) /\
      views.hist_count j (measured.storage (metrics.http_request_duration s'))
        = views.hist_count j (measured.storage
            (metrics.http_request_duration (metrics.AppMetrics_new paths)))
          + (if j =? iq then 1 else 0) /\
      views.counter_val j (measured.storage (metrics.http_responses s'))
        = views.counter_val j (measured.storage (metrics.http_responses (metrics.AppMetrics_new paths)))
          + (if j =? ir then 1 else 0).
Proof.
  intros paths req next.
  split; [reflexivity|]. split; [left; reflexivity|].
  split; [unfold valid_status; cbn; lia|].
  split; [reflexivity|]. split; [reflexivity|]. split; [reflexivity|].
  apply (X8_middleware_effect paths (metrics.AppMetrics_new paths) req next 0.5%float "/users"%string);
    [reflexivity | left; reflexivity | unfold valid_status; cbn; lia
    | reflexivity | reflexivity | reflexivity].
Defined.

(** X10: the label sets of the example never share an accumulator
    between different label groups: two [HttpRequests] (resp.
    [HttpResponses]) values with the same composite index are equal,
    since the labels exported for an index are the path, the method (and
    the status) of the label group encoded to it. *)
Theorem X10_label_sets_injective (paths : metrics.RodeoReader) :
  (forall l1 l2 i,
     metrics.HttpRequestsSet_encode paths l1 = Some i ->
     metrics.HttpRequestsSet_encode paths l2 = Some i -> l1 = l2) /\
  (forall l1 l2 i,
     metrics.HttpResponsesSet_encode paths l1 = Some i ->
     metrics.HttpResponsesSet_encode paths l2 = Some i -> l1 = l2).
Proof.
  split.
  - intros [p1 m1] [p2 m2] i H1 H2.
    apply HttpRequestsSet_encode_labels in H1, H2. rewrite H1 in H2.
    cbn [metrics.rq_path metrics.rq_method] in H2.
    injection H2 as Hp Hm. apply Method_name_inj in Hm. subst. reflexivity.
  - intros [p1 m1 [[n1]]] [p2 m2 [[n2]]] i H1 H2.
    apply HttpResponsesSet_encode_labels in H1, H2. rewrite H1 in H2.
    cbn [metrics.rs_path metrics.rs_method metrics.rs_status metrics.status0 axum_http.as_u16] in H2.
    injection H2 as Hp Hm Hn. apply Method_name_inj in Hm. subst. reflexivity.
Qed.




